(** * matchingEngine.py: the ZMQ notification reader

    A shallow embedding of [ZMQHandler] from [src/matchingEngine.py]: the body
    of the [handle] coroutine (indexing of the multipart message, decoding of
    the trailing sequence number, dispatch on the topic, printing), the
    self-rescheduling receive loop on the asyncio event loop, and
    [start]/[stop].

    Python values are modelled as follows: [bytes] objects are lists of
    [Byte.byte], [str] objects are [string], [int]s are [Z], the multipart
    message is a [list bytes].  Exceptions and the output of [print] are
    threaded through a small trace/exception monad. *)

From Stdlib Require Import List ZArith Lia Bool String.
From Stdlib Require Import Strings.Byte DecimalString DecimalZ.
From Stdlib Require Import Relations.Relation_Operators.
Import ListNotations.

Local Open Scope string_scope.
Local Open Scope Z_scope.
Local Open Scope list_scope.

(** ** Python values *)

Definition bytes := list Byte.byte.

(** A bytes literal [b"..."] with ASCII content. *)
Definition b (s : string) : bytes := list_byte_of_string s.

Definition byte_val (x : Byte.byte) : Z := Z.of_N (Byte.to_N x).

(** [==] on bytes objects. *)
Fixpoint bytes_eqb (x y : bytes) : bool :=
  match x, y with
  | [], [] => true
  | c :: x', d :: y' => Byte.eqb c d && bytes_eqb x' y'
  | _, _ => false
  end.

(** [len(x)] *)
Definition len {A} (l : list A) : Z := Z.of_nat (List.length l).

Inductive Exn :=
| IndexError      (* sequence index out of range *)
| StructError     (* struct.error: unpack requires a buffer of 4 bytes *)
| OSError         (* sys.stdout write failure raised by print *)
| ZMQError.       (* operation on a closed socket *)

(** [l[i]] for a Python list, tuple or bytes: negative indices count from
    the end, anything outside [-len, len) raises IndexError. *)
Definition getitem {A} (l : list A) (i : Z) : Exn + A :=
  let j := if i <? 0 then i + len l else i in
  if (j <? 0) || (len l <=? j) then inl IndexError
  else match nth_error l (Z.to_nat j) with
       | Some x => inr x
       | None => inl IndexError
       end.

(** [x[:n]] for [0 <= n]: the slice is clamped to the length of [x]. *)
Definition slice_to (n : Z) (x : bytes) : bytes :=
  firstn (Z.to_nat (Z.min n (len x))) x.

(** [int.from_bytes(x, "little")] *)
Fixpoint int_from_le (x : bytes) : Z :=
  match x with
  | [] => 0
  | c :: x' => byte_val c + 256 * int_from_le x'
  end.

(** [struct.unpack('<I', data)]: one little-endian unsigned 32-bit integer,
    returned as a 1-tuple; a buffer that is not 4 bytes long raises. *)
Definition struct_unpack_I (data : bytes) : Exn + list Z :=
  if len data =? 4 then inr [int_from_le data] else inl StructError.

(** [str(n)] for an int: decimal, no leading zeros, ["-"] for negatives. *)
Definition str (n : Z) : string := NilZero.string_of_int (Z.to_int n).

(** [binascii.hexlify(data)]: two lowercase hexadecimal digits per byte,
    as a bytes object. *)
Definition hex_digit (n : N) : Byte.byte :=
  match Byte.of_N (if (n <? 10)%N then 48 + n else 87 + n)%N with
  | Some c => c
  | None => x00
  end.

Definition hexlify (data : bytes) : bytes :=
  flat_map (fun c => [hex_digit (Byte.to_N c / 16); hex_digit (Byte.to_N c mod 16)]) data.

(** An argument of [print]: the script prints str and bytes objects. *)
Inductive PyVal :=
| PStr (s : string)
| PBytes (x : bytes).

(** ** Observable events and the effect monad *)

Inductive Event :=
| EvRecv (msg : list bytes)   (* recv_multipart returned msg *)
| EvPrint (v : PyVal)         (* print(v) wrote a line *)
| EvSpawn                     (* asyncio.ensure_future(self.handle()) *)
| EvRaise (e : Exn).          (* a task ended with an unhandled exception *)

Definition Trace := list Event.

Inductive Outcome (A : Type) :=
| Ok (a : A) (t : Trace)
| Raise (e : Exn) (t : Trace).
Arguments Ok {A} a t.
Arguments Raise {A} e t.

Definition M (A : Type) := Trace -> Outcome A.

Definition ret {A} (a : A) : M A := fun t => Ok a t.

Definition bind {A B} (m : M A) (k : A -> M B) : M B :=
  fun t => match m t with
           | Ok a t' => k a t'
           | Raise e t' => Raise e t'
           end.

Definition lift {A} (r : Exn + A) : M A :=
  fun t => match r with
           | inr a => Ok a t
           | inl e => Raise e t
           end.

Declare Scope py_scope.
Delimit Scope py_scope with py.
Notation "x <- m ;; k" := (bind m (fun x => k))
  (at level 61, m at next level, right associativity) : py_scope.
Notation "m ;; k" := (bind m (fun _ => k))
  (at level 61, right associativity) : py_scope.
Local Open Scope py_scope.

Section Handler.

(** The standard output is outside the program: [stdout_fails t v] tells
    whether writing [v] after the history [t] fails (closed pipe, full
    disk); [print] then raises OSError and writes nothing. *)
Variable stdout_fails : Trace -> PyVal -> bool.

Definition print (v : PyVal) : M unit :=
  fun t => if stdout_fails t v then Raise OSError t
           else Ok tt (t ++ [EvPrint v]).

(** Lines 36-53 of [ZMQHandler.handle]: everything between the return of
    [recv_multipart] and the rescheduling call. *)
Definition handle_body (msg : list bytes) : M unit :=
  topic <- lift (getitem msg 0) ;;
  body <- lift (getitem msg 1) ;;
  sequence <-
    (tail <- lift (getitem msg (-1)) ;;
     if len tail =? 4 then
       tail' <- lift (getitem msg (-1)) ;;
       fields <- lift (struct_unpack_I tail') ;;
       msgSequence <- lift (getitem fields (-1)) ;;
       ret (str msgSequence)
     else ret "Unknown") ;;
  if bytes_eqb topic (b "hashblock") then
    print (PStr ("- HASH BLOCK (" ++ sequence ++ ") -")%string) ;;
    print (PBytes (hexlify body))
  else if bytes_eqb topic (b "hashtx") then
    print (PStr ("- HASH TX  (" ++ sequence ++ ") -")%string) ;;
    print (PBytes (hexlify body))
  else if bytes_eqb topic (b "rawblock") then
    print (PStr ("- RAW BLOCK HEADER (" ++ sequence ++ ") -")%string) ;;
    print (PBytes (hexlify (slice_to 80 body)))
  else if bytes_eqb topic (b "rawtx") then
    print (PStr ("- RAW TX (" ++ sequence ++ ") -")%string) ;;
    print (PBytes (hexlify body))
  else ret tt.

(** [asyncio.ensure_future(self.handle())], line 55: a new [handle] task
    is put on the loop (the task itself is added by [fire] below). *)
Definition ensure_future_handle : M unit :=
  fun t => Ok tt (t ++ [EvSpawn]).

(** The [handle] coroutine from the point where [recv_multipart] hands it
    [msg] (line 35) to its end (line 55).  There is no [await] in between,
    so the event loop runs this as one uninterrupted callback. *)
Definition handle (msg : list bytes) : M unit :=
  (fun t => Ok tt (t ++ [EvRecv msg])) ;;
  handle_body msg ;;
  ensure_future_handle.

(** ** The event loop *)

(** A [handle] task is either created and not yet run, or suspended in
    [await self.zmqSubSocket.recv_multipart()]. *)
Inductive Coro := AtEntry | AtRecv.

Record Daemon := mkDaemon {
  tasks : list Coro;            (* unfinished tasks of self.loop *)
  running : bool;               (* control is inside loop.run_forever() *)
  stopping : bool;              (* loop.stop() was called *)
  closed : bool;                (* self.zmqContext.closed, sockets closed *)
  sigint_bound : bool;          (* SIGINT is bound to self.stop *)
  inbox : list (list bytes);    (* frames the socket will deliver, oldest first *)
  trace : Trace }.

(** [ZMQHandler.__init__]: a fresh loop, context and connected socket;
    [arrivals] are the frames the publisher is going to send. *)
Definition ZMQHandler_init (arrivals : list (list bytes)) : Daemon :=
  mkDaemon [] false false false false arrivals [].

(** Which tasks the loop can resume: one at its entry point, or one
    suspended in [recv_multipart] on an open socket that has a frame.  What
    pyzmq does to a receive that is pending when the socket is closed (it
    is cancelled, which ends the task without a frame) is not followed. *)
Definition runnable (d : Daemon) (c : Coro) : bool :=
  match c with
  | AtEntry => true
  | AtRecv => negb (closed d) && match inbox d with [] => false | _ => true end
  end.

(** The loop runs task [c], found between [p1] and [p2], until it
    suspends or finishes. *)
Definition fire (d : Daemon) (p1 : list Coro) (c : Coro) (p2 : list Coro) : Daemon :=
  match c with
  | AtEntry =>
      if closed d then
        mkDaemon (p1 ++ p2) (running d) (stopping d) (closed d) (sigint_bound d)
                 (inbox d) (trace d ++ [EvRaise ZMQError])
      else
        mkDaemon (p1 ++ AtRecv :: p2) (running d) (stopping d) (closed d)
                 (sigint_bound d) (inbox d) (trace d)
  | AtRecv =>
      match inbox d with
      | [] => d
      | msg :: rest =>
          match handle msg (trace d) with
          | Ok _ t' =>
              mkDaemon (p1 ++ p2 ++ [AtEntry]) (running d) (stopping d) (closed d)
                       (sigint_bound d) rest t'
          | Raise e t' =>
              mkDaemon (p1 ++ p2) (running d) (stopping d) (closed d)
                       (sigint_bound d) rest (t' ++ [EvRaise e])
          end
      end
  end.

(** One callback of the running loop: any runnable task may be the one. *)
Inductive step (d : Daemon) : Daemon -> Prop :=
| step_fire p1 c p2 :
    running d = true ->
    tasks d = p1 ++ c :: p2 ->
    runnable d c = true ->
    step d (fire d p1 c p2).

Definition steps : Daemon -> Daemon -> Prop := clos_refl_trans_1n Daemon step.

(** The loop's own choice: the oldest runnable task. *)
Fixpoint choose (d : Daemon) (p : list Coro) : option (list Coro * Coro * list Coro) :=
  match p with
  | [] => None
  | c :: p' =>
      if runnable d c then Some ([], c, p')
      else match choose d p' with
           | Some (p1, c', p2) => Some (c :: p1, c', p2)
           | None => None
           end
  end.

Definition next (d : Daemon) : option Daemon :=
  if running d then
    match choose d (tasks d) with
    | Some (p1, c, p2) => Some (fire d p1 c p2)
    | None => None
    end
  else None.

Fixpoint run_n (n : nat) (d : Daemon) : Daemon :=
  match n with
  | O => d
  | S n' => match next d with
            | Some d' => run_n n' d'
            | None => d
            end
  end.

(** Tasks that have not yet reached their [await]. *)
Fixpoint entries (p : list Coro) : nat :=
  match p with
  | [] => 0
  | AtEntry :: p' => S (entries p')
  | AtRecv :: p' => entries p'
  end.

(** Every callback either consumes a frame or moves a task off its entry
    point, so this many callbacks bring the loop to rest. *)
Definition fuel (d : Daemon) : nat :=
  2 * List.length (inbox d) + entries (tasks d).

(** Control enters [loop.run_forever()]. *)
Definition enter_loop (d : Daemon) : Daemon :=
  mkDaemon (tasks d) true (stopping d) (closed d) (sigint_bound d)
           (inbox d) (trace d).

(** [loop.run_forever()] on a loop that is not running yet (asyncio
    refuses to re-enter a running loop): callbacks run until none is
    runnable; the loop then exits if its stop flag is set, clearing the flag
    as asyncio does on exit, and otherwise stays blocked waiting for input.
    With the flag set before entry asyncio runs a single iteration; the flag
    is only ever set by [stop] below, which also closes the context, so the
    callbacks of that iteration are first resumptions of tasks, which fail
    in [recv_multipart].  Delivery of SIGINT, and so a [stop] from inside
    the loop, is not modelled. *)
Definition run_forever (d : Daemon) : Daemon :=
  let d2 := run_n (fuel (enter_loop d)) (enter_loop d) in
  if stopping d2 then
    mkDaemon (tasks d2) false false (closed d2) (sigint_bound d2) (inbox d2) (trace d2)
  else d2.

(** [self.loop.add_signal_handler(signal.SIGINT, self.stop)] *)
Definition add_signal_handler (d : Daemon) : Daemon :=
  mkDaemon (tasks d) (running d) (stopping d) (closed d) true (inbox d) (trace d).

(** [self.loop.create_task(self.handle())] *)
Definition create_task (d : Daemon) : Daemon :=
  mkDaemon (tasks d ++ [AtEntry]) (running d) (stopping d) (closed d)
           (sigint_bound d) (inbox d) (trace d).

(** [ZMQHandler.start], lines 57-60. *)
Definition start (d : Daemon) : Daemon :=
  run_forever (create_task (add_signal_handler d)).

(** [self.loop.stop()]: sets the loop's stop flag and returns. *)
Definition loop_stop (d : Daemon) : Exn + Daemon :=
  inr (mkDaemon (tasks d) (running d) true (closed d) (sigint_bound d)
                (inbox d) (trace d)).

(** [self.zmqContext.destroy()]: closes the context's sockets and
    terminates it; on a closed context it returns at once. *)
Definition context_destroy (d : Daemon) : Exn + Daemon :=
  if closed d then inr d
  else inr (mkDaemon (tasks d) (running d) (stopping d) true (sigint_bound d)
                     (inbox d) (trace d)).

(** [ZMQHandler.stop], lines 62-64: the two calls in sequence; an exception
    of the first would skip the second. *)
Definition stop (d : Daemon) : Exn + Daemon :=
  match loop_stop d with
  | inr d1 => context_destroy d1
  | inl e => inl e
  end.

End Handler.

Definition never_fails : Trace -> PyVal -> bool := fun _ _ => false.

(** ** The notification view of the specification

    The specification describes the output of one frame as a notification
    record handed to a consumer.  In the script the consumer is the pair of
    [print] calls of the matching branch; [deliver] is that pair, as a
    function of the record. *)

Inductive Topic := BlockHash | TxHash | RawBlockHeader | RawTx.

Definition wire (k : Topic) : bytes :=
  match k with
  | BlockHash => b "hashblock"
  | TxHash => b "hashtx"
  | RawBlockHeader => b "rawblock"
  | RawTx => b "rawtx"
  end.

Record Notification := mkNotification {
  topic : Topic;
  payload : bytes;
  sequence : option Z }.

Definition headline (k : Topic) (s : string) : string :=
  match k with
  | BlockHash => "- HASH BLOCK (" ++ s ++ ") -"
  | TxHash => "- HASH TX  (" ++ s ++ ") -"
  | RawBlockHeader => "- RAW BLOCK HEADER (" ++ s ++ ") -"
  | RawTx => "- RAW TX (" ++ s ++ ") -"
  end%string.

Definition show_sequence (s : option Z) : string :=
  match s with
  | Some n => str n
  | None => "Unknown"
  end.

Definition deliver (fails : Trace -> PyVal -> bool) (n : Notification) : M unit :=
  print fails (PStr (headline (topic n) (show_sequence (sequence n)))) ;;
  print fails (PBytes (hexlify (payload n))).

(** The dispatcher states of the specification, read off the daemon:
    Stopped once the channel is closed, Stopping while only the stop flag is
    set, Running inside [run_forever], Idle otherwise. *)
Inductive Lifecycle := Idle | Running | Stopping | Stopped.

Definition lifecycle (d : Daemon) : Lifecycle :=
  if closed d then Stopped
  else if stopping d then Stopping
  else if running d then Running
  else Idle.

(** The values one frame makes [handle] print when the output works. *)
Definition printed (msg : list bytes) : list PyVal :=
  match handle_body never_fails msg [] with
  | Ok _ t | Raise _ t =>
      flat_map (fun e => match e with EvPrint v => [v] | _ => [] end) t
  end.

(** The events of one successfully handled frame. *)
Definition block (msg : list bytes) : Trace :=
  EvRecv msg :: map EvPrint (printed msg) ++ [EvSpawn].

(** The daemon is inside the loop with one [handle] task, and has handled
    a prefix of the frames [fs], one whole frame after the other. *)
Definition in_order (fs : list (list bytes)) (d : Daemon) : Prop :=
  running d = true /\ closed d = false /\ stopping d = false /\
  List.length (tasks d) = 1%nat /\
  exists done, fs = done ++ inbox d /\ trace d = flat_map block done.

(** An output whose very first write fails and which works afterwards:
    the history then holds one event, the receipt of the first frame. *)
Definition first_write_fails : Trace -> PyVal -> bool :=
  fun t _ => (List.length t =? 1)%nat.

(** ** The rest of the script *)

(** The trace an outcome leaves behind, returned or raised. *)
Definition trace_of {A} (o : Outcome A) : Trace :=
  match o with
  | Ok _ t => t
  | Raise _ t => t
  end.

(** The values written and the frames received along a trace. *)
Definition prints_of (t : Trace) : list PyVal :=
  flat_map (fun e => match e with EvPrint v => [v] | _ => [] end) t.

Definition recvs_of (t : Trace) : list (list bytes) :=
  flat_map (fun e => match e with EvRecv m => [m] | _ => [] end) t.

(** The frame's topic is one of the four literals [handle] compares with. *)
Definition recognised (msg : list bytes) : bool :=
  match msg with
  | [] => false
  | tp :: _ =>
      existsb (fun k => bytes_eqb tp (wire k)) [BlockHash; TxHash; RawBlockHeader; RawTx]
  end.

(** [ZMQHandler.__init__], lines 28-31: the four SUBSCRIBE options, in the
    order they are set; [setsockopt_string] sends the text utf-8 encoded. *)
Definition subscriptions : list bytes :=
  [b "hashblock"; b "hashtx"; b "rawblock"; b "rawtx"].

Fixpoint is_prefix (p x : bytes) : bool :=
  match p, x with
  | [], _ => true
  | c :: p', d :: x' => Byte.eqb c d && is_prefix p' x'
  | _ :: _, [] => false
  end.

(** A SUB socket hands over a message when one of its subscriptions is a
    prefix of the message's first part. *)
Definition passes_filter (subs : list bytes) (msg : list bytes) : bool :=
  match msg with
  | [] => false
  | tp :: _ => existsb (fun p => is_prefix p tp) subs
  end.

(** ** The decoding the specification describes

    Section 4.2, steps 1 to 4, written from the words of the specification
    and independently of [handle_body], to state what a run must print. *)

(** A part of exactly four bytes read as a little-endian unsigned 32-bit
    integer; any other part gives no sequence. *)
Definition spec_sequence (x : bytes) : option Z :=
  match x with
  | [b0; b1; b2; b3] =>
      Some (byte_val b0 + 2 ^ 8 * byte_val b1 + 2 ^ 16 * byte_val b2
            + 2 ^ 24 * byte_val b3)
  | _ => None
  end.

(** Exact match of the first part against the four literals. *)
Definition spec_topic (tp : bytes) : option Topic :=
  find (fun k => bytes_eqb tp (wire k)) [BlockHash; TxHash; RawBlockHeader; RawTx].

Definition spec_decode (msg : list bytes) : option Notification :=
  match msg with
  | tp :: body :: _ =>
      match spec_topic tp with
      | Some k =>
          Some (mkNotification k
                  (match k with RawBlockHeader => firstn 80 body | _ => body end)
                  (spec_sequence (last msg [])))
      | None => None
      end
  | _ => None
  end.

(** What the consumer of the script, the two [print] calls, writes for the
    decoded frame; nothing for a frame that is dropped. *)
Definition spec_lines (msg : list bytes) : list PyVal :=
  match spec_decode msg with
  | Some n =>
      [PStr (headline (topic n) (show_sequence (sequence n)));
       PBytes (hexlify (payload n))]
  | None => []
  end.

(** The events of one frame received, dispatched and followed by the
    rescheduling of [handle]. *)
Definition dispatch_events (msg : list bytes) : Trace :=
  EvRecv msg :: map EvPrint (spec_lines msg) ++ [EvSpawn].

(** How far the loop has come with the frames [fs]: a prefix [done] of them
    is off the queue; while the [handle] task lives, the trace is the
    dispatch of each of these in turn; once the task has died, it is the
    dispatch of all but the last of them, then the last one received, an
    initial part of its lines, and the exception. *)
Definition dispatched_in_order (fs : list (list bytes)) (d : Daemon) : Prop :=
  exists done,
    fs = done ++ inbox d /\
    match tasks d with
    | [_] => trace d = flat_map dispatch_events done
    | [] =>
        exists done' m l l' e,
          done = done' ++ [m] /\ spec_lines m = l ++ l' /\
          trace d = flat_map dispatch_events done'
                    ++ EvRecv m :: map EvPrint l ++ [EvRaise e]
    | _ => False
    end.

(** * Properties *)

Example handle_rawtx_3parts :
  handle_body never_fails [b "rawtx"; [x01; xab]; [x07; x00; x00; x00]] [] =
  Ok tt [EvPrint (PStr "- RAW TX (7) -"); EvPrint (PBytes (b "01ab"))].
Proof. reflexivity. Qed.

Example handle_hashtx_2parts :
  handle_body never_fails [b "hashtx"; [xff; x10]] [] =
  Ok tt [EvPrint (PStr "- HASH TX  (Unknown) -"); EvPrint (PBytes (b "ff10"))].
Proof. reflexivity. Qed.

Example handle_one_part : handle_body never_fails [b "rawtx"] [] = Raise IndexError [].
Proof. reflexivity. Qed.

Example handle_rawblock_84_bytes :
  handle_body never_fails
    [b "rawblock"; repeat x2a 80 ++ [x01; x02; x03; x04]; [x07; x00; x00; x00]] [] =
  deliver never_fails (mkNotification RawBlockHeader (repeat x2a 80) (Some 7)) [].
Proof. reflexivity. Qed.

Example handle_unknown_topic :
  handle_body never_fails [b "unknowntopic"; b "data"] [] = Ok tt [].
Proof. reflexivity. Qed.

Example handle_prefixed_topic :
  handle_body never_fails [b "hashblockx"; b "data"] [] = Ok tt [].
Proof. reflexivity. Qed.

(** ** Python primitives *)

Lemma bytes_eqb_eq (x y : bytes) : bytes_eqb x y = true <-> x = y.
Proof.
  revert y; induction x as [|c x IH]; intros [|d y]; simpl; split;
    try congruence; try reflexivity.
  - intros H. apply andb_true_iff in H as [Hc Hx].
    apply Byte.byte_dec_bl in Hc. apply IH in Hx. now subst.
  - intros [= -> ->]. apply andb_true_iff. split.
    + now apply Byte.byte_dec_lb.
    + now apply IH.
Qed.

Lemma bytes_eqb_neq (x y : bytes) : x <> y -> bytes_eqb x y = false.
Proof.
  intros H. destruct (bytes_eqb x y) eqn:E; [|reflexivity].
  apply bytes_eqb_eq in E. contradiction.
Qed.

Lemma getitem_bounds {A} (l : list A) (i : Z) (x : A) :
  getitem l i = inr x -> - len l <= i < len l.
Proof.
  unfold getitem. destruct (i <? 0) eqn:Hi.
  - destruct ((i + len l <? 0) || (len l <=? i + len l)) eqn:Hb; [discriminate|].
    apply orb_false_iff in Hb as [H1 H2]. lia.
  - destruct ((i <? 0) || (len l <=? i)) eqn:Hb; [discriminate|].
    apply orb_false_iff in Hb as [H1 H2]. lia.
Qed.

Lemma getitem_defined {A} (l : list A) (i : Z) :
  - len l <= i < len l -> exists x, getitem l i = inr x.
Proof.
  intros H. unfold getitem.
  set (j := if i <? 0 then i + len l else i).
  assert (Hj : 0 <= j < len l) by (subst j; destruct (i <? 0) eqn:E; lia).
  replace ((j <? 0) || (len l <=? j)) with false
    by (symmetry; apply orb_false_iff; split; lia).
  destruct (nth_error l (Z.to_nat j)) as [x|] eqn:E; [now exists x|].
  apply nth_error_None in E. unfold len in Hj. lia.
Qed.

Lemma getitem_nonneg {A} (l : list A) (i : Z) (x : A) :
  0 <= i -> getitem l i = inr x <-> nth_error l (Z.to_nat i) = Some x.
Proof.
  intros Hi. assert (E : (i <? 0) = false) by lia.
  unfold getitem. cbv zeta. rewrite !E. rewrite orb_false_l.
  destruct (len l <=? i) eqn:Hl.
  - split; [discriminate|]. intros H.
    assert (nth_error l (Z.to_nat i) <> None) by congruence.
    apply nth_error_Some in H0. unfold len in Hl. lia.
  - destruct (nth_error l (Z.to_nat i)); split; congruence.
Qed.

Lemma getitem_last {A} (l : list A) (x d : A) :
  getitem l (-1) = inr x <-> l <> [] /\ last l d = x.
Proof.
  unfold getitem. cbv zeta. change (-1 <? 0) with true. cbv iota.
  destruct l as [|a l].
  - simpl. split; [discriminate | intros [H _]; congruence].
  - assert (Hn : len (a :: l) = Z.of_nat (List.length l) + 1)
      by (unfold len; simpl List.length; lia).
    replace ((-1 + len (a :: l) <? 0) || (len (a :: l) <=? -1 + len (a :: l)))
      with false by (symmetry; apply orb_false_iff; split; lia).
    replace (Z.to_nat (-1 + len (a :: l))) with (List.length l) by lia.
    assert (E : nth_error (a :: l) (List.length l) = Some (last (a :: l) d)).
    { clear Hn. revert a. induction l as [|c l IH]; intros a; [reflexivity|].
      simpl List.length. change (nth_error (a :: c :: l) (S (List.length l)))
        with (nth_error (c :: l) (List.length l)).
      rewrite IH. reflexivity. }
    rewrite E. cbv beta iota. split.
    + intros [= <-]. split; [discriminate | reflexivity].
    + intros [_ <-]. reflexivity.
Qed.

Lemma slice_to_firstn (n : nat) (x : bytes) :
  slice_to (Z.of_nat n) x = firstn (Nat.min n (List.length x)) x.
Proof.
  unfold slice_to, len. f_equal.
  rewrite <- Nat2Z.inj_min. apply Nat2Z.id.
Qed.

Lemma int_from_le_4 (b0 b1 b2 b3 : Byte.byte) :
  int_from_le [b0; b1; b2; b3] =
  byte_val b0 + 2 ^ 8 * byte_val b1 + 2 ^ 16 * byte_val b2 + 2 ^ 24 * byte_val b3.
Proof.
  cbn [int_from_le].
  change (2 ^ 8) with 256; change (2 ^ 16) with 65536; change (2 ^ 24) with 16777216.
  lia.
Qed.

Lemma byte_val_range (c : Byte.byte) : 0 <= byte_val c < 256.
Proof.
  unfold byte_val. pose proof (Byte.to_N_bounded c). lia.
Qed.

Lemma int_from_le_range (x : bytes) :
  0 <= int_from_le x < 256 ^ len x.
Proof.
  induction x as [|c x IH].
  - cbn. lia.
  - pose proof (byte_val_range c).
    replace (len (c :: x)) with (Z.succ (len x)) by (unfold len; simpl List.length; lia).
    rewrite Z.pow_succ_r by (unfold len; lia).
    cbn [int_from_le]. lia.
Qed.

(** ** The body of [handle] *)

Lemma wire_cases (tp : bytes) :
  (exists k, tp = wire k) \/ (forall k, tp <> wire k).
Proof.
  destruct (bytes_eqb tp (b "hashblock")) eqn:E1;
    [left; exists BlockHash; now apply bytes_eqb_eq|].
  destruct (bytes_eqb tp (b "hashtx")) eqn:E2;
    [left; exists TxHash; now apply bytes_eqb_eq|].
  destruct (bytes_eqb tp (b "rawblock")) eqn:E3;
    [left; exists RawBlockHeader; now apply bytes_eqb_eq|].
  destruct (bytes_eqb tp (b "rawtx")) eqn:E4;
    [left; exists RawTx; now apply bytes_eqb_eq|].
  right. intros k ->.
  destruct k; cbn [wire] in *;
    match goal with
    | H : bytes_eqb ?x ?x = false |- _ =>
        assert (bytes_eqb x x = true) by (now apply bytes_eqb_eq); congruence
    end.
Qed.

Lemma second_part_gives_last (msg : list bytes) (body : bytes) :
  getitem msg 1 = inr body -> exists tl, getitem msg (-1) = inr tl.
Proof.
  intros H. apply getitem_bounds in H. apply getitem_defined. lia.
Qed.

(** On a recognised topic the body of [handle] is the delivery of one
    notification, whose fields are read off the three parts it indexes. *)
Lemma handle_body_recognised fails msg k body tl t :
  getitem msg 0 = inr (wire k) ->
  getitem msg 1 = inr body ->
  getitem msg (-1) = inr tl ->
  handle_body fails msg t =
  deliver fails
    (mkNotification k
       (match k with RawBlockHeader => slice_to 80 body | _ => body end)
       (if len tl =? 4 then Some (int_from_le tl) else None)) t.
Proof.
  intros H0 H1 H2. unfold handle_body, bind, lift. rewrite H0, H1, H2.
  destruct (len tl =? 4) eqn:E.
  - unfold struct_unpack_I. rewrite E.
    destruct k; reflexivity.
  - destruct k; reflexivity.
Qed.

(** On any other topic no branch of the [if]/[elif] chain is taken. *)
Lemma handle_body_unrecognised fails msg tp body t :
  getitem msg 0 = inr tp ->
  getitem msg 1 = inr body ->
  (forall k, tp <> wire k) ->
  handle_body fails msg t = Ok tt t.
Proof.
  intros H0 H1 Hk. destruct (second_part_gives_last msg body H1) as [tl H2].
  unfold handle_body, bind, lift. rewrite H0, H1, H2.
  rewrite (bytes_eqb_neq tp (b "hashblock") (Hk BlockHash)).
  rewrite (bytes_eqb_neq tp (b "hashtx") (Hk TxHash)).
  rewrite (bytes_eqb_neq tp (b "rawblock") (Hk RawBlockHeader)).
  rewrite (bytes_eqb_neq tp (b "rawtx") (Hk RawTx)).
  destruct (len tl =? 4) eqn:E; [|reflexivity].
  unfold struct_unpack_I. rewrite E. reflexivity.
Qed.

Lemma print_raises fails v t e t' :
  print fails v t = Raise e t' -> e = OSError /\ t' = t.
Proof.
  unfold print. destruct (fails t v); [intros [= <- <-]; auto | discriminate].
Qed.

Lemma deliver_raises fails n t e t' :
  deliver fails n t = Raise e t' -> e = OSError.
Proof.
  unfold deliver, bind.
  destruct (print fails (PStr _) t) as [[] t1|e1 t1] eqn:E1.
  - intros H. now apply print_raises in H.
  - intros [= <- <-]. now apply print_raises in E1.
Qed.

Lemma deliver_never_fails n t :
  deliver never_fails n t =
  Ok tt (t ++ [EvPrint (PStr (headline (topic n) (show_sequence (sequence n))));
               EvPrint (PBytes (hexlify (payload n)))]).
Proof.
  unfold deliver, bind, print, never_fails. now rewrite <- app_assoc.
Qed.

(** ** What is printed determines the notification *)

Lemma str_parses (n : Z) :
  NilZero.int_of_string (str n) = Some (Z.to_int n).
Proof.
  unfold str. apply NilZero.isi.
  - destruct n; simpl; try discriminate;
      intros [= H]; now apply DecimalPos.Unsigned.to_uint_nonnil in H.
  - destruct n; simpl; try discriminate;
      intros [= H]; now apply DecimalPos.Unsigned.to_uint_nonnil in H.
Qed.

Lemma str_inj (n m : Z) : str n = str m -> n = m.
Proof.
  intros H. apply DecimalZ.to_int_inj.
  pose proof (str_parses n) as Hn. rewrite H, str_parses in Hn. congruence.
Qed.

Lemma str_not_unknown (n : Z) : str n <> "Unknown".
Proof.
  intros H. pose proof (str_parses n) as Hn. rewrite H in Hn. discriminate.
Qed.

Lemma show_sequence_inj (s s' : option Z) :
  show_sequence s = show_sequence s' -> s = s'.
Proof.
  destruct s as [n|], s' as [m|]; simpl; intros H.
  - f_equal. now apply str_inj.
  - now apply str_not_unknown in H.
  - symmetry in H. now apply str_not_unknown in H.
  - reflexivity.
Qed.

Lemma list_ascii_append (s u : string) :
  list_ascii_of_string (s ++ u)%string =
  list_ascii_of_string s ++ list_ascii_of_string u.
Proof.
  induction s as [|c s IH]; simpl; [reflexivity | now rewrite IH].
Qed.

Lemma append_inv_tail (s s' u : string) :
  (s ++ u)%string = (s' ++ u)%string -> s = s'.
Proof.
  intros H. apply (f_equal list_ascii_of_string) in H.
  rewrite !list_ascii_append in H. apply app_inv_tail in H.
  rewrite <- (string_of_list_ascii_of_string s),
          <- (string_of_list_ascii_of_string s').
  now rewrite H.
Qed.

Lemma headline_inj (k k' : Topic) (s s' : string) :
  headline k s = headline k' s' -> k = k' /\ s = s'.
Proof.
  destruct k, k'; cbn [headline String.append]; intros H;
    try discriminate H;
    (split; [reflexivity|]); injection H as H; now apply append_inv_tail in H.
Qed.

Lemma hex_digit_inj (n m : N) :
  (n < 16)%N -> (m < 16)%N -> hex_digit n = hex_digit m -> n = m.
Proof.
  intros Hn Hm.
  assert (En : In n (map N.of_nat (seq 0 16))).
  { apply in_map_iff. exists (N.to_nat n). split; [lia|]. apply in_seq. lia. }
  assert (Em : In m (map N.of_nat (seq 0 16))).
  { apply in_map_iff. exists (N.to_nat m). split; [lia|]. apply in_seq. lia. }
  cbn in En, Em.
  repeat (destruct En as [<-|En]; [|]); try contradiction;
    repeat (destruct Em as [<-|Em]; [|]); try contradiction;
    vm_compute; congruence.
Qed.

Lemma hex_pair_inj (c d : Byte.byte) :
  hex_digit (Byte.to_N c / 16) = hex_digit (Byte.to_N d / 16) ->
  hex_digit (Byte.to_N c mod 16) = hex_digit (Byte.to_N d mod 16) ->
  c = d.
Proof.
  intros Hhi Hlo.
  pose proof (Byte.to_N_bounded c) as Bc. pose proof (Byte.to_N_bounded d) as Bd.
  apply hex_digit_inj in Hhi;
    [| apply N.Div0.div_lt_upper_bound; lia | apply N.Div0.div_lt_upper_bound; lia].
  apply hex_digit_inj in Hlo; [| apply N.mod_lt; lia | apply N.mod_lt; lia].
  assert (E : Byte.to_N c = Byte.to_N d).
  { rewrite (N.div_mod (Byte.to_N c) 16), (N.div_mod (Byte.to_N d) 16) by lia.
    now rewrite Hhi, Hlo. }
  apply (f_equal Byte.of_N) in E. rewrite !Byte.of_to_N in E. congruence.
Qed.

Lemma hexlify_inj (x y : bytes) : hexlify x = hexlify y -> x = y.
Proof.
  revert y. induction x as [|c x IH]; intros [|d y]; cbn [hexlify flat_map app];
    try discriminate; [reflexivity|].
  intros [= Hhi Hlo Hrest]. f_equal.
  - now apply hex_pair_inj.
  - now apply IH.
Qed.

(** Two notifications that print the same lines are the same record. *)
Lemma deliver_inj (n n' : Notification) (t : Trace) :
  deliver never_fails n t = deliver never_fails n' t -> n = n'.
Proof.
  rewrite !deliver_never_fails. intros [= H]. apply app_inv_head in H.
  injection H as Hh Hp.
  apply headline_inj in Hh as [Hk Hs]. apply show_sequence_inj in Hs.
  apply hexlify_inj in Hp.
  destruct n, n'; simpl in *; congruence.
Qed.

(** ** Decoding of one frame *)

(** C1. On a frame with topic [b"rawblock"] the notification carries the
    first [min(80, len(body))] bytes of the body, whatever the length of the
    body; on the three other recognised topics it carries the body itself. *)
Theorem rawblock_payload_truncated fails (msg : list bytes) (body : bytes) :
  getitem msg 1 = inr body ->
  (getitem msg 0 = inr (b "rawblock") ->
   List.length (firstn (Nat.min 80 (List.length body)) body)
     = Nat.min 80 (List.length body) /\
   exists s, forall t,
     handle_body fails msg t =
     deliver fails
       (mkNotification RawBlockHeader
          (firstn (Nat.min 80 (List.length body)) body) s) t) /\
  (forall k, k <> RawBlockHeader ->
   getitem msg 0 = inr (wire k) ->
   exists s, forall t,
     handle_body fails msg t = deliver fails (mkNotification k body s) t).
Proof.
  intros H1. destruct (second_part_gives_last msg body H1) as [tl H2]. split.
  - intros H0. split.
    + rewrite length_firstn. lia.
    + exists (if len tl =? 4 then Some (int_from_le tl) else None). intros t.
      rewrite (handle_body_recognised fails msg RawBlockHeader body tl t H0 H1 H2).
      change 80 with (Z.of_nat 80). now rewrite slice_to_firstn.
  - intros k Hk H0.
    exists (if len tl =? 4 then Some (int_from_le tl) else None). intros t.
    rewrite (handle_body_recognised fails msg k body tl t H0 H1 H2).
    destruct k; try reflexivity. contradiction.
Qed.

Lemma rawblock_payload_truncated_witness :
  getitem [b "rawblock"; repeat x2a 84; [x07; x00; x00; x00]] 1
    = inr (repeat x2a 84) /\
  exists s, forall t,
    handle_body never_fails
      [b "rawblock"; repeat x2a 84; [x07; x00; x00; x00]] t =
    deliver never_fails
      (mkNotification RawBlockHeader
         (firstn (Nat.min 80 (List.length (repeat x2a 84))) (repeat x2a 84)) s) t.
Proof.
  split; [reflexivity|].
  exact (proj2 (proj1 (rawblock_payload_truncated never_fails
                         [b "rawblock"; repeat x2a 84; [x07; x00; x00; x00]]
                         (repeat x2a 84) eq_refl) eq_refl)).
Defined.

(** C2. On a frame with a recognised topic whose last part is 4 bytes long,
    the sequence of the notification is the little-endian unsigned 32-bit
    value of that part. *)
Theorem sequence_is_little_endian_uint32 fails (msg : list bytes) (k : Topic)
    (body : bytes) (b0 b1 b2 b3 : Byte.byte) :
  getitem msg 0 = inr (wire k) ->
  getitem msg 1 = inr body ->
  getitem msg (-1) = inr [b0; b1; b2; b3] ->
  let v := byte_val b0 + 2 ^ 8 * byte_val b1 + 2 ^ 16 * byte_val b2
           + 2 ^ 24 * byte_val b3 in
  0 <= v < 2 ^ 32 /\
  exists p, forall t,
    handle_body fails msg t = deliver fails (mkNotification k p (Some v)) t.
Proof.
  intros H0 H1 H2 v. split.
  - pose proof (int_from_le_range [b0; b1; b2; b3]) as R.
    rewrite int_from_le_4 in R. exact R.
  - exists (match k with RawBlockHeader => slice_to 80 body | _ => body end).
    intros t.
    rewrite (handle_body_recognised fails msg k body _ t H0 H1 H2).
    change (len [b0; b1; b2; b3] =? 4) with true. cbv iota.
    now rewrite int_from_le_4.
Qed.

Lemma sequence_is_little_endian_uint32_witness :
  getitem [b "hashtx"; [xde; xad]; [x07; x01; x00; x00]] 0 = inr (wire TxHash) /\
  getitem [b "hashtx"; [xde; xad]; [x07; x01; x00; x00]] 1 = inr [xde; xad] /\
  getitem [b "hashtx"; [xde; xad]; [x07; x01; x00; x00]] (-1)
    = inr [x07; x01; x00; x00] /\
  exists p, forall t,
    handle_body never_fails [b "hashtx"; [xde; xad]; [x07; x01; x00; x00]] t =
    deliver never_fails (mkNotification TxHash p (Some 263)) t.
Proof.
  repeat (split; [reflexivity|]).
  exact (proj2 (sequence_is_little_endian_uint32 never_fails
                  [b "hashtx"; [xde; xad]; [x07; x01; x00; x00]] TxHash
                  [xde; xad] x07 x01 x00 x00 eq_refl eq_refl eq_refl)).
Defined.

(** C3. On a frame whose last part is not 4 bytes long the sequence is the
    unknown value, on every recognised topic. *)
Theorem sequence_unknown_without_4_byte_tail fails (msg : list bytes)
    (k : Topic) (body tl : bytes) :
  getitem msg 0 = inr (wire k) ->
  getitem msg 1 = inr body ->
  getitem msg (-1) = inr tl ->
  List.length tl <> 4%nat ->
  exists p, forall t,
    handle_body fails msg t = deliver fails (mkNotification k p None) t.
Proof.
  intros H0 H1 H2 Hl.
  exists (match k with RawBlockHeader => slice_to 80 body | _ => body end).
  intros t. rewrite (handle_body_recognised fails msg k body tl t H0 H1 H2).
  replace (len tl =? 4) with false; [reflexivity|].
  symmetry. apply Z.eqb_neq. unfold len. lia.
Qed.

Lemma sequence_unknown_without_4_byte_tail_witness :
  getitem [b "hashtx"; repeat x11 32] 0 = inr (wire TxHash) /\
  getitem [b "hashtx"; repeat x11 32] 1 = inr (repeat x11 32) /\
  getitem [b "hashtx"; repeat x11 32] (-1) = inr (repeat x11 32) /\
  List.length (repeat x11 32) <> 4%nat /\
  exists p, forall t,
    handle_body never_fails [b "hashtx"; repeat x11 32] t =
    deliver never_fails (mkNotification TxHash p None) t.
Proof.
  repeat (split; [reflexivity|]).
  assert (Hl : List.length (repeat x11 32) <> 4%nat) by (vm_compute; discriminate).
  split; [exact Hl|].
  exact (sequence_unknown_without_4_byte_tail never_fails
           [b "hashtx"; repeat x11 32] TxHash (repeat x11 32) (repeat x11 32)
           eq_refl eq_refl eq_refl Hl).
Defined.

Lemma three_parts_defined (msg : list bytes) :
  (2 <= List.length msg)%nat ->
  exists tp body tl,
    getitem msg 0 = inr tp /\ getitem msg 1 = inr body /\
    getitem msg (-1) = inr tl.
Proof.
  intros Hlen.
  destruct (getitem_defined msg 0) as [tp H0]; [unfold len; lia|].
  destruct (getitem_defined msg 1) as [body H1]; [unfold len; lia|].
  destruct (getitem_defined msg (-1)) as [tl H2]; [unfold len; lia|].
  now exists tp, body, tl.
Qed.

(** C8. On a frame of at least two parts the three element accesses of
    [handle] are in bounds: each yields a part, and the body of [handle] can
    only raise what [print] raises, never IndexError (nor struct.error). *)
Theorem frame_indexing_in_bounds fails (msg : list bytes) :
  (2 <= List.length msg)%nat ->
  (exists tp body tl,
     getitem msg 0 = inr tp /\ getitem msg 1 = inr body /\
     getitem msg (-1) = inr tl) /\
  (forall t e t', handle_body fails msg t = Raise e t' -> e = OSError).
Proof.
  intros Hlen.
  destruct (three_parts_defined msg Hlen) as (tp & body & tl & H0 & H1 & H2).
  split; [now exists tp, body, tl|].
  intros t e t' H.
  destruct (wire_cases tp) as [[k ->]|Hk].
  - rewrite (handle_body_recognised fails msg k body tl t H0 H1 H2) in H.
    now apply deliver_raises in H.
  - rewrite (handle_body_unrecognised fails msg tp body t H0 H1 Hk) in H.
    discriminate.
Qed.

Lemma frame_indexing_in_bounds_witness :
  (2 <= List.length [b "rawtx"; [x01]])%nat /\
  (exists tp body tl,
     getitem [b "rawtx"; [x01]] 0 = inr tp /\
     getitem [b "rawtx"; [x01]] 1 = inr body /\
     getitem [b "rawtx"; [x01]] (-1) = inr tl) /\
  (forall t e t',
     handle_body never_fails [b "rawtx"; [x01]] t = Raise e t' -> e = OSError).
Proof.
  split; [simpl; lia|].
  apply (frame_indexing_in_bounds never_fails [b "rawtx"; [x01]]). simpl; lia.
Defined.

(** C9. On a two-part frame with a 4-byte body, [msg[-1]] is the body: the
    sequence of the notification is the little-endian value of the body,
    not the unknown value. *)
Theorem two_part_frame_body_read_as_sequence fails (k : Topic)
    (b0 b1 b2 b3 : Byte.byte) (t : Trace) :
  getitem [wire k; [b0; b1; b2; b3]] (-1) = inr [b0; b1; b2; b3] /\
  handle_body fails [wire k; [b0; b1; b2; b3]] t =
  deliver fails
    (mkNotification k [b0; b1; b2; b3]
       (Some (byte_val b0 + 2 ^ 8 * byte_val b1 + 2 ^ 16 * byte_val b2
              + 2 ^ 24 * byte_val b3))) t.
Proof.
  split; [reflexivity|].
  rewrite (handle_body_recognised fails [wire k; [b0; b1; b2; b3]] k
             [b0; b1; b2; b3] [b0; b1; b2; b3] t eq_refl eq_refl eq_refl).
  change (len [b0; b1; b2; b3] =? 4) with true. cbv iota.
  rewrite int_from_le_4. destruct k; reflexivity.
Qed.

(** C10. The body of [handle] depends on the frame only through [msg[0]],
    [msg[1]] and [msg[-1]]: frames of at least two parts that agree there
    behave alike, so the middle parts of a longer frame are never read. *)
Theorem handle_reads_three_parts fails (m1 m2 : list bytes) :
  (2 <= List.length m1)%nat ->
  (2 <= List.length m2)%nat ->
  getitem m1 0 = getitem m2 0 ->
  getitem m1 1 = getitem m2 1 ->
  getitem m1 (-1) = getitem m2 (-1) ->
  forall t, handle_body fails m1 t = handle_body fails m2 t.
Proof.
  intros _ _ H0 H1 H2 t. unfold handle_body. now rewrite H0, H1, H2.
Qed.

Lemma handle_reads_three_parts_witness :
  (2 <= List.length [b "rawtx"; [x01]; [xaa]; [x07; x00; x00; x00]])%nat /\
  (2 <= List.length [b "rawtx"; [x01]; [xbb; xcc]; [x07; x00; x00; x00]])%nat /\
  forall t,
    handle_body never_fails [b "rawtx"; [x01]; [xaa]; [x07; x00; x00; x00]] t =
    handle_body never_fails [b "rawtx"; [x01]; [xbb; xcc]; [x07; x00; x00; x00]] t.
Proof.
  assert (H1 : (2 <= List.length [b "rawtx"; [x01]; [xaa]; [x07; x00; x00; x00]])%nat)
    by (simpl; lia).
  assert (H2 : (2 <= List.length [b "rawtx"; [x01]; [xbb; xcc]; [x07; x00; x00; x00]])%nat)
    by (simpl; lia).
  split; [exact H1|]. split; [exact H2|].
  exact (handle_reads_three_parts never_fails _ _ H1 H2 eq_refl eq_refl eq_refl).
Defined.

(** In particular the third part of a four-part frame is never looked at. *)
Lemma middle_part_ignored fails (tp body x y sq : bytes) (t : Trace) :
  handle_body fails [tp; body; x; sq] t = handle_body fails [tp; body; y; sq] t.
Proof. reflexivity. Qed.

(** ** The event loop *)

Lemma choose_sound d p p1 c p2 :
  choose d p = Some (p1, c, p2) ->
  p = p1 ++ c :: p2 /\ runnable d c = true.
Proof.
  revert p1 c p2. induction p as [|a p IH]; intros p1 c p2; simpl; [discriminate|].
  destruct (runnable d a) eqn:Ra.
  - intros [= <- <- <-]. auto.
  - destruct (choose d p) as [[[q1 c'] q2]|]; [|discriminate].
    intros [= <- <- <-]. destruct (IH q1 c' q2 eq_refl) as [-> R]. auto.
Qed.

Lemma choose_none d p :
  choose d p = None -> forall c, In c p -> runnable d c = false.
Proof.
  induction p as [|a p IH]; simpl; [contradiction|].
  destruct (runnable d a) eqn:Ra; [discriminate|].
  destruct (choose d p) as [[[q1 c'] q2]|]; [discriminate|].
  intros _ c [<-|Hc]; auto.
Qed.

Lemma next_step fails d d' : next fails d = Some d' -> step fails d d'.
Proof.
  unfold next. destruct (running d) eqn:R; [|discriminate].
  destruct (choose d (tasks d)) as [[[p1 c] p2]|] eqn:C; [|discriminate].
  intros [= <-]. apply choose_sound in C as [Hp Hc]. now constructor.
Qed.

Lemma next_none_stuck fails d : next fails d = None -> forall d', ~ step fails d d'.
Proof.
  unfold next. intros H d' Hs. destruct Hs as [p1 c p2 R Hp Hc].
  rewrite R in H.
  destruct (choose d (tasks d)) as [[[q1 c'] q2]|] eqn:C; [discriminate|].
  rewrite (choose_none d _ C c) in Hc; [discriminate|].
  rewrite Hp. apply in_elt.
Qed.

Lemma run_n_steps fails n d : steps fails d (run_n fails n d).
Proof.
  revert d. induction n as [|n IH]; intros d; simpl; [constructor|].
  destruct (next fails d) as [d'|] eqn:N; [|constructor].
  econstructor; [apply next_step; eassumption | apply IH].
Qed.

Lemma entries_app p q : entries (p ++ q) = (entries p + entries q)%nat.
Proof.
  induction p as [|[] p IH]; simpl; [reflexivity | now rewrite IH | exact IH].
Qed.

(** Each callback lowers [fuel]. *)
Lemma step_fuel fails d d' : step fails d d' -> (fuel d' < fuel d)%nat.
Proof.
  intros [p1 c p2 R Hp Hc]. unfold fuel. rewrite Hp.
  destruct c; unfold fire.
  - destruct (closed d); cbn [tasks inbox]; rewrite !entries_app; simpl; lia.
  - simpl in Hc. destruct (inbox d) as [|msg rest]; [rewrite andb_false_r in Hc; discriminate|].
    destruct (handle fails msg (trace d)) as [[] t'|e t']; cbn [tasks inbox];
      rewrite !entries_app; simpl; lia.
Qed.

(** With [fuel d] callbacks the loop is at rest: [run_forever] has run
    every callback there was to run. *)
Lemma run_n_quiescent fails n d :
  (fuel d <= n)%nat -> next fails (run_n fails n d) = None.
Proof.
  revert d. induction n as [|n IH]; intros d Hn; simpl.
  - destruct (next fails d) as [d'|] eqn:N; [|reflexivity].
    apply next_step, step_fuel in N. lia.
  - destruct (next fails d) as [d'|] eqn:N; [|exact N].
    apply IH. apply next_step, step_fuel in N. lia.
Qed.

Lemma step_single fails d c d' :
  tasks d = [c] -> step fails d d' -> d' = fire fails d [] c [].
Proof.
  intros Ht [p1 c0 p2 _ Hp _]. rewrite Ht in Hp.
  destruct p1 as [|a p1].
  - injection Hp as <- <-. reflexivity.
  - injection Hp as _ Hp. now destruct p1.
Qed.

Lemma printed_recognised (msg : list bytes) (k : Topic) (body tl : bytes) :
  getitem msg 0 = inr (wire k) ->
  getitem msg 1 = inr body ->
  getitem msg (-1) = inr tl ->
  printed msg =
  [PStr (headline k (show_sequence
                       (if len tl =? 4 then Some (int_from_le tl) else None)));
   PBytes (hexlify (match k with RawBlockHeader => slice_to 80 body | _ => body end))].
Proof.
  intros H0 H1 H2. unfold printed.
  rewrite (handle_body_recognised never_fails msg k body tl _ H0 H1 H2).
  rewrite deliver_never_fails. reflexivity.
Qed.

Lemma printed_unrecognised (msg : list bytes) (tp body : bytes) :
  getitem msg 0 = inr tp ->
  getitem msg 1 = inr body ->
  (forall k, tp <> wire k) ->
  printed msg = [].
Proof.
  intros H0 H1 Hk. unfold printed.
  now rewrite (handle_body_unrecognised never_fails msg tp body _ H0 H1 Hk).
Qed.

Lemma handle_body_prints (msg : list bytes) (t : Trace) :
  (2 <= List.length msg)%nat ->
  handle_body never_fails msg t = Ok tt (t ++ map EvPrint (printed msg)).
Proof.
  intros Hlen.
  destruct (three_parts_defined msg Hlen) as (tp & body & tl & H0 & H1 & H2).
  unfold printed. destruct (wire_cases tp) as [[k ->]|Hk].
  - rewrite !(handle_body_recognised never_fails msg k body tl _ H0 H1 H2).
    rewrite !deliver_never_fails. reflexivity.
  - rewrite !(handle_body_unrecognised never_fails msg tp body _ H0 H1 Hk).
    simpl. now rewrite app_nil_r.
Qed.

Lemma handle_appends_block (msg : list bytes) (t : Trace) :
  (2 <= List.length msg)%nat ->
  handle never_fails msg t = Ok tt (t ++ block msg).
Proof.
  intros Hlen. unfold handle, bind, ensure_future_handle.
  rewrite handle_body_prints by exact Hlen.
  unfold block. rewrite <- !app_assoc. reflexivity.
Qed.

Lemma in_order_step fs d d' :
  Forall (fun m => (2 <= List.length m)%nat) fs ->
  in_order fs d -> step never_fails d d' -> in_order fs d'.
Proof.
  intros Hfs (Hr & Hc & Hs & Hl & done & Hd & Ht) Hstep.
  destruct (tasks d) as [|c [|]] eqn:Hp; try discriminate Hl.
  rewrite (step_single never_fails d c d' Hp Hstep).
  destruct Hstep as [p1 c0 p2 _ Hp' Hrun].
  assert (c0 = c) as ->.
  { rewrite Hp in Hp'. destruct p1 as [|a p1]; [now injection Hp' as <- _|].
    injection Hp' as _ Hp'. now destruct p1. }
  destruct c; unfold fire.
  - rewrite Hc. unfold in_order; cbn. repeat (split; [assumption || reflexivity|]).
    now exists done.
  - simpl in Hrun. destruct (inbox d) as [|msg rest] eqn:Hi;
      [rewrite andb_false_r in Hrun; discriminate|].
    assert (Hm : (2 <= List.length msg)%nat).
    { rewrite Forall_forall in Hfs. apply Hfs. rewrite Hd. apply in_elt. }
    rewrite (handle_appends_block msg (trace d) Hm).
    unfold in_order; cbn. repeat (split; [assumption || reflexivity|]).
    exists (done ++ [msg]). split.
    + now rewrite <- app_assoc.
    + rewrite flat_map_app, Ht. simpl. now rewrite app_nil_r.
Qed.

Lemma in_order_steps fs d d' :
  Forall (fun m => (2 <= List.length m)%nat) fs ->
  in_order fs d -> steps never_fails d d' -> in_order fs d'.
Proof.
  intros Hfs Hd Hsteps. induction Hsteps as [|d d1 d2 Hstep _ IH]; [assumption|].
  apply IH. eapply in_order_step; eassumption.
Qed.

Lemma in_order_at_rest fs d :
  in_order fs d -> next never_fails d = None ->
  tasks d = [AtRecv] /\ inbox d = [] /\ trace d = flat_map block fs.
Proof.
  intros (Hr & Hc & Hs & Hl & done & Hd & Ht) Hn.
  unfold next in Hn. rewrite Hr in Hn.
  destruct (tasks d) as [|c [|]] eqn:Hp; try discriminate Hl.
  destruct c; simpl in Hn; [discriminate|].
  rewrite Hc in Hn. destruct (inbox d) as [|msg rest]; [|discriminate].
  rewrite app_nil_r in Hd. subst done. auto.
Qed.

Lemma in_order_entering fs :
  in_order fs (enter_loop (create_task (add_signal_handler (ZMQHandler_init fs)))).
Proof.
  unfold in_order; cbn. repeat (split; [reflexivity|]). now exists [].
Qed.

(** [start] on a fresh daemon handles every frame and leaves the loop
    running, its one task waiting in [recv_multipart]. *)
Lemma start_in_order fs :
  Forall (fun m => (2 <= List.length m)%nat) fs ->
  in_order fs (start never_fails (ZMQHandler_init fs)) /\
  tasks (start never_fails (ZMQHandler_init fs)) = [AtRecv] /\
  inbox (start never_fails (ZMQHandler_init fs)) = [] /\
  trace (start never_fails (ZMQHandler_init fs)) = flat_map block fs.
Proof.
  intros Hfs. unfold start, run_forever.
  set (d1 := enter_loop (create_task (add_signal_handler (ZMQHandler_init fs)))).
  set (d2 := run_n never_fails (fuel d1) d1).
  assert (H2 : in_order fs d2)
    by (apply (in_order_steps fs d1 d2 Hfs (in_order_entering fs)), run_n_steps).
  assert (Hq : next never_fails d2 = None) by (apply run_n_quiescent; lia).
  destruct (in_order_at_rest fs d2 H2 Hq) as (Hp & Hi & Ht).
  pose proof H2 as (_ & _ & Hs & _). rewrite Hs. auto.
Qed.

Lemma start_is_running fs :
  Forall (fun m => (2 <= List.length m)%nat) fs ->
  lifecycle (start never_fails (ZMQHandler_init fs)) = Running.
Proof.
  intros Hfs. destruct (start_in_order fs Hfs) as ((Hr & Hc & Hs & _) & _).
  unfold lifecycle. now rewrite Hc, Hs, Hr.
Qed.

(** C4. A frame of at least two parts whose topic is none of the four
    literals prints nothing and raises nothing; the loop consumes it,
    reschedules [handle], and the new task waits for the next frame. *)
Theorem unrecognised_topic_is_skipped fails (d : Daemon) (msg : list bytes)
    (rest : list (list bytes)) (tp body : bytes) :
  running d = true -> closed d = false ->
  tasks d = [AtRecv] -> inbox d = msg :: rest ->
  getitem msg 0 = inr tp -> getitem msg 1 = inr body ->
  tp <> b "hashblock" -> tp <> b "hashtx" ->
  tp <> b "rawblock" -> tp <> b "rawtx" ->
  (forall t, handle_body fails msg t = Ok tt t) /\
  run_n fails 2 d =
  mkDaemon [AtRecv] true (stopping d) false (sigint_bound d) rest
           (trace d ++ [EvRecv msg; EvSpawn]).
Proof.
  intros Hr Hc Ht Hi H0 H1 N1 N2 N3 N4.
  assert (Hk : forall k, tp <> wire k) by (intros []; assumption).
  assert (Hb : forall t, handle_body fails msg t = Ok tt t)
    by (intros t; exact (handle_body_unrecognised fails msg tp body t H0 H1 Hk)).
  split; [exact Hb|].
  assert (E : next fails d =
              Some (mkDaemon [AtEntry] true (stopping d) false (sigint_bound d)
                      rest (trace d ++ [EvRecv msg; EvSpawn]))).
  { unfold next. rewrite Hr, Ht. cbn [choose runnable]. rewrite Hc, Hi.
    cbn [negb andb fire]. rewrite Hi. unfold handle, bind, ensure_future_handle.
    rewrite Hb, Hr, Hc. cbn. rewrite <- app_assoc. reflexivity. }
  change (run_n fails 2 d)
    with (match next fails d with Some d' => run_n fails 1 d' | None => d end).
  rewrite E. reflexivity.
Qed.

Lemma unrecognised_topic_is_skipped_witness :
  run_n never_fails 2
    (mkDaemon [AtRecv] true false false true
       [[b "unknowntopic"; b "data"]; [b "hashtx"; [x01]]] []) =
  mkDaemon [AtRecv] true false false true [[b "hashtx"; [x01]]]
    [EvRecv [b "unknowntopic"; b "data"]; EvSpawn].
Proof.
  refine (proj2 (unrecognised_topic_is_skipped never_fails
            (mkDaemon [AtRecv] true false false true
               [[b "unknowntopic"; b "data"]; [b "hashtx"; [x01]]] [])
            [b "unknowntopic"; b "data"] [[b "hashtx"; [x01]]]
            (b "unknowntopic") (b "data")
            eq_refl eq_refl eq_refl eq_refl eq_refl eq_refl _ _ _ _));
    discriminate.
Defined.

Lemma no_task_no_step fails d d' : tasks d = [] -> ~ step fails d d'.
Proof.
  intros Ht [p1 c p2 _ Hp _]. rewrite Ht in Hp. now destruct p1.
Qed.

Lemma no_task_rest fails d d' : tasks d = [] -> steps fails d d' -> d' = d.
Proof.
  intros Ht Hs. destruct Hs as [|d1 d2 Hstep _]; [reflexivity|].
  now apply no_task_no_step in Hstep.
Qed.

(** C5, as the code has it.  [handle] has no exception handler: when the
    body raises on a frame, the task ends before it reaches the rescheduling
    call, the exception stays with the dead task (the loop keeps running),
    and no task is left to receive the frames that follow. *)
Theorem handler_failure_ends_ingestion fails (d : Daemon) (msg : list bytes)
    (rest : list (list bytes)) (e : Exn) (t' : Trace) :
  running d = true -> closed d = false ->
  tasks d = [AtRecv] -> inbox d = msg :: rest ->
  handle_body fails msg (trace d ++ [EvRecv msg]) = Raise e t' ->
  next fails d =
    Some (mkDaemon [] true (stopping d) false (sigint_bound d) rest
                   (t' ++ [EvRaise e])) /\
  (forall d',
     steps fails (mkDaemon [] true (stopping d) false (sigint_bound d) rest
                           (t' ++ [EvRaise e])) d' ->
     inbox d' = rest /\ trace d' = t' ++ [EvRaise e]).
Proof.
  intros Hr Hc Ht Hi Hb. split.
  - unfold next. rewrite Hr, Ht. cbn [choose runnable]. rewrite Hc, Hi.
    cbn [negb andb fire]. rewrite Hi. unfold handle, bind. rewrite Hb, Hr, Hc.
    reflexivity.
  - intros d' Hs. apply no_task_rest in Hs; [|reflexivity]. now subst d'.
Qed.

Lemma handler_failure_ends_ingestion_witness :
  next first_write_fails
    (mkDaemon [AtRecv] true false false true
       [[b "hashtx"; [x01]]; [b "hashtx"; [x02]]] []) =
  Some (mkDaemon [] true false false true [[b "hashtx"; [x02]]]
          [EvRecv [b "hashtx"; [x01]]; EvRaise OSError]).
Proof.
  exact (proj1 (handler_failure_ends_ingestion first_write_fails
                  (mkDaemon [AtRecv] true false false true
                     [[b "hashtx"; [x01]]; [b "hashtx"; [x02]]] [])
                  [b "hashtx"; [x01]] [[b "hashtx"; [x02]]] OSError
                  [EvRecv [b "hashtx"; [x01]]]
                  eq_refl eq_refl eq_refl eq_refl eq_refl)).
Defined.

(** C5, as claimed, fails: the first frame's print raises, the second frame
    (whose prints would succeed) is never received, and the loop is left
    without any task. *)
Lemma handler_failure_stops_dispatch :
  trace (start first_write_fails
           (ZMQHandler_init [[b "hashtx"; [x01]]; [b "hashtx"; [x02]]])) =
    [EvRecv [b "hashtx"; [x01]]; EvRaise OSError] /\
  inbox (start first_write_fails
           (ZMQHandler_init [[b "hashtx"; [x01]]; [b "hashtx"; [x02]]])) =
    [[b "hashtx"; [x02]]] /\
  ~ In (EvRecv [b "hashtx"; [x02]])
       (trace (start first_write_fails
                 (ZMQHandler_init [[b "hashtx"; [x01]]; [b "hashtx"; [x02]]]))) /\
  tasks (start first_write_fails
           (ZMQHandler_init [[b "hashtx"; [x01]]; [b "hashtx"; [x02]]])) = [] /\
  running (start first_write_fails
             (ZMQHandler_init [[b "hashtx"; [x01]]; [b "hashtx"; [x02]]])) = true /\
  (forall d',
     ~ step first_write_fails
         (start first_write_fails
            (ZMQHandler_init [[b "hashtx"; [x01]]; [b "hashtx"; [x02]]])) d') /\
  handle_body first_write_fails [b "hashtx"; [x02]]
    [EvRecv [b "hashtx"; [x01]]; EvRaise OSError; EvRecv [b "hashtx"; [x02]]] =
  Ok tt [EvRecv [b "hashtx"; [x01]]; EvRaise OSError; EvRecv [b "hashtx"; [x02]];
         EvPrint (PStr "- HASH TX  (Unknown) -"); EvPrint (PBytes (b "02"))].
Proof.
  repeat split; try reflexivity.
  - intros [H|[H|[]]]; discriminate.
  - intros d'. now apply no_task_no_step.
Qed.

(** ** Shutdown *)

Lemma run_n_no_task fails n d : tasks d = [] -> run_n fails n d = d.
Proof.
  intros Ht. destruct n as [|n]; [reflexivity|].
  simpl. unfold next. rewrite Ht. now destruct (running d).
Qed.

(** C7, as the code has it.  [stop] returns normally in every state: it
    sets the loop's stop flag and closes the context, and leaves everything
    else as it was; a second [stop] returns normally too and changes
    nothing; the dispatcher is then Stopped.  That holds before [start] as
    well: on a daemon that was never started, a later [start] runs its one
    task once, which fails in [recv_multipart] on the closed socket, no
    frame is received under any output, and [start] returns at once. *)
Theorem stop_is_idempotent_and_final fails (d : Daemon) :
  stop d = inr (mkDaemon (tasks d) (running d) true true (sigint_bound d)
                         (inbox d) (trace d)) /\
  stop (mkDaemon (tasks d) (running d) true true (sigint_bound d)
                 (inbox d) (trace d)) =
    inr (mkDaemon (tasks d) (running d) true true (sigint_bound d)
                  (inbox d) (trace d)) /\
  lifecycle (mkDaemon (tasks d) (running d) true true (sigint_bound d)
                      (inbox d) (trace d)) = Stopped /\
  (running d = false -> tasks d = [] ->
   start fails (mkDaemon (tasks d) (running d) true true (sigint_bound d)
                         (inbox d) (trace d)) =
   mkDaemon [] false false true true (inbox d) (trace d ++ [EvRaise ZMQError])).
Proof.
  split; [|split; [|split]].
  - unfold stop, loop_stop, context_destroy. cbn. now destruct (closed d).
  - reflexivity.
  - reflexivity.
  - intros Hr Ht. rewrite Hr, Ht. unfold start, run_forever.
    set (d1 := enter_loop (create_task (add_signal_handler _))).
    replace (fuel d1) with (S (2 * List.length (inbox d)))
      by (unfold fuel; cbn; lia).
    cbn [run_n]. unfold next, d1. cbn.
    now rewrite run_n_no_task.
Qed.

Lemma stop_is_idempotent_and_final_witness :
  false = false /\ @nil Coro = [] /\
  start never_fails
    (mkDaemon [] false true true false [[b "hashtx"; [x01]]; [b "rawtx"; [x02]]] []) =
  mkDaemon [] false false true true [[b "hashtx"; [x01]]; [b "rawtx"; [x02]]]
    [EvRaise ZMQError].
Proof.
  split; [reflexivity|]. split; [reflexivity|].
  exact (proj2 (proj2 (proj2 (stop_is_idempotent_and_final never_fails
           (ZMQHandler_init [[b "hashtx"; [x01]]; [b "rawtx"; [x02]]]))))
           eq_refl eq_refl).
Defined.

(** C7, as claimed, fails for [stop] before [start]: the fresh daemon is
    Idle, but [stop] leaves it Stopped; a later [start] finds the socket
    closed and handles no frame, where the fresh daemon handles it. *)
Lemma stop_before_start_is_not_idle :
  lifecycle (ZMQHandler_init [[b "hashtx"; [x01]]]) = Idle /\
  stop (ZMQHandler_init [[b "hashtx"; [x01]]]) =
    inr (mkDaemon [] false true true false [[b "hashtx"; [x01]]] []) /\
  lifecycle (mkDaemon [] false true true false [[b "hashtx"; [x01]]] []) <> Idle /\
  start never_fails (mkDaemon [] false true true false [[b "hashtx"; [x01]]] []) =
    mkDaemon [] false false true true [[b "hashtx"; [x01]]] [EvRaise ZMQError] /\
  start never_fails (ZMQHandler_init [[b "hashtx"; [x01]]]) =
    mkDaemon [AtRecv] true false false true []
      [EvRecv [b "hashtx"; [x01]]; EvPrint (PStr "- HASH TX  (Unknown) -");
       EvPrint (PBytes (b "01")); EvSpawn].
Proof.
  repeat split; try reflexivity. discriminate.
Qed.

(** * Further properties *)

(** ** Frames that are too short *)

Lemma short_frame_raises fails (msg : list bytes) (t : Trace) :
  (List.length msg < 2)%nat -> handle_body fails msg t = Raise IndexError t.
Proof.
  intros H. destruct msg as [|x [|y msg]]; [reflexivity | reflexivity |].
  simpl in H. lia.
Qed.

(** X1. A frame of fewer than two parts makes [handle] raise IndexError
    before anything is printed, and since the rescheduling call is not
    reached, the loop is left without a task: the frames behind it stay
    unread. *)
Theorem short_frame_ends_ingestion fails (d : Daemon) (msg : list bytes)
    (rest : list (list bytes)) :
  (List.length msg < 2)%nat ->
  running d = true -> closed d = false ->
  tasks d = [AtRecv] -> inbox d = msg :: rest ->
  (forall t, handle_body fails msg t = Raise IndexError t) /\
  next fails d =
    Some (mkDaemon [] true (stopping d) false (sigint_bound d) rest
                   (trace d ++ [EvRecv msg; EvRaise IndexError])) /\
  (forall d',
     ~ step fails (mkDaemon [] true (stopping d) false (sigint_bound d) rest
                            (trace d ++ [EvRecv msg; EvRaise IndexError])) d').
Proof.
  intros Hlen Hr Hc Ht Hi. split; [|split].
  - intros t. now apply short_frame_raises.
  - unfold next. rewrite Hr, Ht. cbn [choose runnable]. rewrite Hc, Hi.
    cbn [negb andb fire]. rewrite Hi. unfold handle, bind.
    rewrite (short_frame_raises fails msg _ Hlen), Hr, Hc.
    now rewrite <- app_assoc.
  - intros d'. now apply no_task_no_step.
Qed.

Lemma short_frame_ends_ingestion_witness :
  next never_fails
    (mkDaemon [AtRecv] true false false true [[b "rawtx"]; [b "rawtx"; [x01]]] []) =
  Some (mkDaemon [] true false false true [[b "rawtx"; [x01]]]
          [EvRecv [b "rawtx"]; EvRaise IndexError]).
Proof.
  refine (proj1 (proj2 (short_frame_ends_ingestion never_fails
            (mkDaemon [AtRecv] true false false true
               [[b "rawtx"]; [b "rawtx"; [x01]]] [])
            [b "rawtx"] [[b "rawtx"; [x01]]] _ eq_refl eq_refl eq_refl eq_refl))).
  simpl. lia.
Defined.

(** ** The output identifies the frame *)

Lemma byte_val_inj (c d : Byte.byte) : byte_val c = byte_val d -> c = d.
Proof.
  unfold byte_val. intros H. apply N2Z.inj in H.
  apply (f_equal Byte.of_N) in H. rewrite !Byte.of_to_N in H. congruence.
Qed.

Lemma int_from_le_inj (x y : bytes) :
  List.length x = List.length y -> int_from_le x = int_from_le y -> x = y.
Proof.
  revert y. induction x as [|c x IH]; intros [|d y];
    cbn [List.length int_from_le]; try discriminate; [reflexivity|].
  intros [= Hl] H.
  pose proof (byte_val_range c). pose proof (byte_val_range d).
  assert (byte_val c = byte_val d) by lia.
  assert (int_from_le x = int_from_le y) by lia.
  f_equal; [now apply byte_val_inj | now apply IH].
Qed.

Lemma firstn_min_length {A} (n : nat) (l : list A) :
  firstn (Nat.min n (List.length l)) l = firstn n l.
Proof.
  destruct (Nat.le_gt_cases n (List.length l)) as [H|H].
  - now rewrite Nat.min_l.
  - rewrite Nat.min_r by lia. rewrite firstn_all.
    symmetry. apply firstn_all2. lia.
Qed.

(** X2. Two frames with recognised topics that make [handle] print the
    same two lines have the same topic, the same body (for rawblock: the
    same first 80 bytes), and agree on the trailing part: either both have a
    4-byte one, and then the very same four bytes, or neither has. *)
Theorem printed_output_determines_frame (m1 m2 : list bytes) (k1 k2 : Topic)
    (body1 body2 tl1 tl2 : bytes) (t : Trace) :
  getitem m1 0 = inr (wire k1) -> getitem m1 1 = inr body1 ->
  getitem m1 (-1) = inr tl1 ->
  getitem m2 0 = inr (wire k2) -> getitem m2 1 = inr body2 ->
  getitem m2 (-1) = inr tl2 ->
  handle_body never_fails m1 t = handle_body never_fails m2 t ->
  k1 = k2 /\
  (match k1 with
   | RawBlockHeader => firstn 80 body1 = firstn 80 body2
   | _ => body1 = body2
   end) /\
  (List.length tl1 = 4%nat <-> List.length tl2 = 4%nat) /\
  (List.length tl1 = 4%nat -> tl1 = tl2).
Proof.
  intros A0 A1 A2 B0 B1 B2 H.
  rewrite (handle_body_recognised never_fails m1 k1 body1 tl1 t A0 A1 A2) in H.
  rewrite (handle_body_recognised never_fails m2 k2 body2 tl2 t B0 B1 B2) in H.
  apply deliver_inj in H. injection H as Hk Hp Hs. subst k2.
  assert (L1 : (len tl1 =? 4) = true <-> List.length tl1 = 4%nat)
    by (unfold len; rewrite Z.eqb_eq; lia).
  assert (L2 : (len tl2 =? 4) = true <-> List.length tl2 = 4%nat)
    by (unfold len; rewrite Z.eqb_eq; lia).
  assert (Hiff : List.length tl1 = 4%nat <-> List.length tl2 = 4%nat).
  { rewrite <- L1, <- L2.
    destruct (len tl1 =? 4), (len tl2 =? 4); try discriminate Hs; tauto. }
  split; [reflexivity|]. split; [|split].
  - destruct k1; try exact Hp.
    change 80 with (Z.of_nat 80) in Hp. rewrite !slice_to_firstn in Hp.
    now rewrite !firstn_min_length in Hp.
  - exact Hiff.
  - intros Hl. pose proof (proj1 Hiff Hl) as Hl2.
    rewrite (proj2 L1 Hl), (proj2 L2 Hl2) in Hs.
    injection Hs as Hs. apply int_from_le_inj; congruence.
Qed.

Lemma printed_output_determines_frame_witness :
  handle_body never_fails [b "hashtx"; [xde; xad]; [x07; x01; x00; x00]] [] =
  handle_body never_fails [b "hashtx"; [xde; xad]; [xff]; [x07; x01; x00; x00]] [] /\
  (List.length [x07; x01; x00; x00] = 4%nat ->
   [x07; x01; x00; x00] = [x07; x01; x00; x00]).
Proof.
  split; [reflexivity|].
  exact (proj2 (proj2 (proj2 (printed_output_determines_frame
           [b "hashtx"; [xde; xad]; [x07; x01; x00; x00]]
           [b "hashtx"; [xde; xad]; [xff]; [x07; x01; x00; x00]]
           TxHash TxHash [xde; xad] [xde; xad]
           [x07; x01; x00; x00] [x07; x01; x00; x00] []
           eq_refl eq_refl eq_refl eq_refl eq_refl eq_refl eq_refl)))).
Defined.

(** ** Shape of the output *)

Lemma length_hexlify (x : bytes) : List.length (hexlify x) = (2 * List.length x)%nat.
Proof.
  induction x as [|c x IH]; [reflexivity|].
  cbn [hexlify flat_map app List.length] in *. unfold hexlify in IH. rewrite IH. lia.
Qed.

Lemma hex_digit_is_hex (n : N) :
  (n < 16)%N -> In (hex_digit n) (b "0123456789abcdef").
Proof.
  intros Hn.
  assert (En : In n (map N.of_nat (seq 0 16))).
  { apply in_map_iff. exists (N.to_nat n). split; [lia|]. apply in_seq. lia. }
  cbn in En.
  repeat (destruct En as [<-|En]; [vm_compute; tauto|]). contradiction.
Qed.

Lemma hexlify_is_hex (x : bytes) :
  Forall (fun c => In c (b "0123456789abcdef")) (hexlify x).
Proof.
  induction x as [|c x IH]; [constructor|].
  pose proof (Byte.to_N_bounded c) as B.
  cbn [hexlify flat_map app]. constructor; [|constructor; [|exact IH]].
  - apply hex_digit_is_hex. apply N.Div0.div_lt_upper_bound. lia.
  - apply hex_digit_is_hex. apply N.mod_lt. lia.
Qed.

(** X3. On a recognised topic [handle] prints exactly two values: a str
    headline, then a bytes object of lowercase hexadecimal digits, two per
    body byte; for rawblock that is [2 * min(80, len(body))] digits, so
    never more than 160. *)
Theorem printed_hex_line (msg : list bytes) (k : Topic) (body : bytes) :
  getitem msg 0 = inr (wire k) ->
  getitem msg 1 = inr body ->
  exists h x,
    printed msg = [PStr h; PBytes x] /\
    List.length x =
      (2 * match k with
           | RawBlockHeader => Nat.min 80 (List.length body)
           | _ => List.length body
           end)%nat /\
    Forall (fun c => In c (b "0123456789abcdef")) x.
Proof.
  intros H0 H1. destruct (second_part_gives_last msg body H1) as [tl H2].
  rewrite (printed_recognised msg k body tl H0 H1 H2).
  eexists _, _. split; [reflexivity|]. split; [|apply hexlify_is_hex].
  rewrite length_hexlify. f_equal. destruct k; try reflexivity.
  change 80 with (Z.of_nat 80). rewrite slice_to_firstn, length_firstn. lia.
Qed.

Lemma printed_hex_line_witness :
  exists h x,
    printed [b "rawblock"; repeat x2a 84; [x07; x00; x00; x00]] = [PStr h; PBytes x] /\
    List.length x = (2 * Nat.min 80 (List.length (repeat x2a 84)))%nat /\
    Forall (fun c => In c (b "0123456789abcdef")) x.
Proof.
  exact (printed_hex_line [b "rawblock"; repeat x2a 84; [x07; x00; x00; x00]]
           RawBlockHeader (repeat x2a 84) eq_refl eq_refl).
Defined.

(** ** A failing output *)

Lemma printed_short (msg : list bytes) :
  (List.length msg < 2)%nat -> printed msg = [].
Proof.
  intros H. unfold printed. now rewrite (short_frame_raises never_fails msg [] H).
Qed.

Lemma deliver_writes_prefix fails (n : Notification) (t : Trace) :
  exists l l',
    trace_of (deliver fails n t) = t ++ map EvPrint l /\
    [PStr (headline (topic n) (show_sequence (sequence n)));
     PBytes (hexlify (payload n))] = l ++ l' /\
    (forall u t', deliver fails n t = Ok u t' -> l' = []).
Proof.
  unfold deliver, bind, print.
  destruct (fails t (PStr _)) eqn:E1.
  - eexists [], _. cbn. rewrite app_nil_r. repeat split. discriminate.
  - destruct (fails (t ++ [EvPrint (PStr _)]) (PBytes _)) eqn:E2.
    + eexists [_], [_]. cbn. repeat split. discriminate.
    + eexists [_; _], []. cbn. rewrite <- app_assoc. repeat split.
Qed.

Lemma handle_body_writes_prefix fails (msg : list bytes) (t : Trace) :
  exists l l',
    trace_of (handle_body fails msg t) = t ++ map EvPrint l /\
    printed msg = l ++ l' /\
    (forall u t', handle_body fails msg t = Ok u t' -> l' = []).
Proof.
  destruct (Nat.lt_ge_cases (List.length msg) 2) as [Hs|Hl].
  - rewrite (printed_short msg Hs), (short_frame_raises fails msg t Hs).
    exists [], []. cbn. rewrite app_nil_r. repeat split.
  - destruct (three_parts_defined msg Hl) as (tp & body & tl & H0 & H1 & H2).
    destruct (wire_cases tp) as [[k ->]|Hk].
    + rewrite (printed_recognised msg k body tl H0 H1 H2).
      rewrite (handle_body_recognised fails msg k body tl t H0 H1 H2).
      apply deliver_writes_prefix.
    + rewrite (printed_unrecognised msg tp body H0 H1 Hk).
      rewrite (handle_body_unrecognised fails msg tp body t H0 H1 Hk).
      exists [], []. cbn. rewrite app_nil_r. repeat split.
Qed.

Lemma printed_at_most_two (msg : list bytes) : (List.length (printed msg) <= 2)%nat.
Proof.
  destruct (Nat.lt_ge_cases (List.length msg) 2) as [Hs|Hl].
  - rewrite (printed_short msg Hs). simpl; lia.
  - destruct (three_parts_defined msg Hl) as (tp & body & tl & H0 & H1 & H2).
    destruct (wire_cases tp) as [[k ->]|Hk].
    + rewrite (printed_recognised msg k body tl H0 H1 H2). simpl; lia.
    + rewrite (printed_unrecognised msg tp body H0 H1 Hk). simpl; lia.
Qed.

(** X4. Whatever the output does and whatever was written before, the body
    of [handle] only appends to the output, and what it appends is an
    initial part of the (at most two) values it prints when the output
    works: all of them if it returns, fewer only if a [print] raised. *)
Theorem output_failure_truncates fails (msg : list bytes) (t : Trace) :
  (List.length (printed msg) <= 2)%nat /\
  exists l l',
    trace_of (handle_body fails msg t) = t ++ map EvPrint l /\
    printed msg = l ++ l' /\
    (forall u t', handle_body fails msg t = Ok u t' -> l' = []).
Proof.
  split; [apply printed_at_most_two | apply handle_body_writes_prefix].
Qed.

(** ** The loop under any output and any scheduling *)

Lemma recvs_of_app (t u : Trace) : recvs_of (t ++ u) = recvs_of t ++ recvs_of u.
Proof. apply flat_map_app. Qed.

Lemma prints_of_app (t u : Trace) : prints_of (t ++ u) = prints_of t ++ prints_of u.
Proof. apply flat_map_app. Qed.

Lemma recvs_of_prints (l : list PyVal) : recvs_of (map EvPrint l) = [].
Proof. induction l as [|v l IH]; [reflexivity | exact IH]. Qed.

Lemma prints_of_prints (l : list PyVal) : prints_of (map EvPrint l) = l.
Proof.
  unfold prints_of. induction l as [|v l IH]; [reflexivity|].
  simpl. now rewrite IH.
Qed.

(** One resumption of [handle] records the receipt of its frame, then
    prints, then either reschedules or dies. *)
Lemma handle_outcome fails (msg : list bytes) (t : Trace) :
  exists l,
    handle fails msg t = Ok tt (t ++ EvRecv msg :: map EvPrint l ++ [EvSpawn]) \/
    exists e, handle fails msg t = Raise e (t ++ EvRecv msg :: map EvPrint l).
Proof.
  destruct (handle_body_writes_prefix fails msg (t ++ [EvRecv msg]))
    as (l & l' & Ht & _ & _).
  exists l. unfold handle, bind, ensure_future_handle.
  destruct (handle_body fails msg (t ++ [EvRecv msg])) as [[] t1|e t1];
    cbn [trace_of] in Ht; subst t1.
  - left. now rewrite <- !app_assoc.
  - right. exists e. now rewrite <- !app_assoc.
Qed.

Lemma step_effect fails d d' :
  step fails d d' ->
  (List.length (tasks d') <= List.length (tasks d))%nat /\
  exists added,
    trace d' = trace d ++ added /\ inbox d = recvs_of added ++ inbox d'.
Proof.
  intros [p1 c p2 _ Hp Hrun]. rewrite Hp. destruct c; unfold fire.
  - destruct (closed d); cbn [tasks trace inbox]; rewrite !length_app; cbn.
    + split; [lia|]. now exists [EvRaise ZMQError].
    + split; [lia|]. exists []. now rewrite app_nil_r.
  - simpl in Hrun. destruct (inbox d) as [|msg rest];
      [rewrite andb_false_r in Hrun; discriminate|].
    destruct (handle_outcome fails msg (trace d)) as [l [H|[e H]]]; rewrite H;
      cbn [tasks trace inbox]; rewrite !length_app; cbn [List.length].
    + split; [lia|]. eexists. split; [reflexivity|].
      cbn. now rewrite recvs_of_app, recvs_of_prints.
    + split; [lia|]. exists (EvRecv msg :: map EvPrint l ++ [EvRaise e]).
      split; [now rewrite <- app_assoc|].
      cbn. now rewrite recvs_of_app, recvs_of_prints.
Qed.

(** X5. Along any run of the loop, whichever task is picked at each
    callback and whatever the output does, the number of tasks never grows,
    the trace is only extended, and the frames received in the extension
    are exactly the frames taken off the front of the inbox, in arrival
    order, each once. *)
Theorem loop_receives_in_order fails (d d' : Daemon) :
  steps fails d d' ->
  (List.length (tasks d') <= List.length (tasks d))%nat /\
  exists added,
    trace d' = trace d ++ added /\ inbox d = recvs_of added ++ inbox d'.
Proof.
  intros Hs. induction Hs as [|d d1 d2 Hstep _ IH].
  - split; [lia|]. exists []. now rewrite app_nil_r.
  - destruct (step_effect fails d d1 Hstep) as (L1 & a1 & T1 & I1).
    destruct IH as (L2 & a2 & T2 & I2).
    split; [lia|]. exists (a1 ++ a2). split.
    + now rewrite T2, T1, app_assoc.
    + now rewrite I1, I2, recvs_of_app, app_assoc.
Qed.

Lemma loop_receives_in_order_witness :
  steps first_write_fails
    (mkDaemon [AtRecv; AtEntry] true false false true
       [[b "hashtx"; [x01]]; [b "hashtx"; [x02]]] [])
    (run_n first_write_fails 3
       (mkDaemon [AtRecv; AtEntry] true false false true
          [[b "hashtx"; [x01]]; [b "hashtx"; [x02]]] [])) /\
  (List.length
     (tasks (run_n first_write_fails 3
               (mkDaemon [AtRecv; AtEntry] true false false true
                  [[b "hashtx"; [x01]]; [b "hashtx"; [x02]]] []))) <= 2)%nat.
Proof.
  split; [apply run_n_steps|].
  exact (proj1 (loop_receives_in_order first_write_fails _ _
                  (run_n_steps first_write_fails 3
                     (mkDaemon [AtRecv; AtEntry] true false false true
                        [[b "hashtx"; [x01]]; [b "hashtx"; [x02]]] [])))).
Defined.

(** X6. The loop cannot spin: every callback uses up a frame or moves a
    task off its entry point, so [2 * frames + tasks at entry] bounds the
    callbacks of any run, and after that many [run_forever] has left no
    runnable task, whatever the output does. *)
Theorem loop_comes_to_rest fails (d : Daemon) :
  (forall d', step fails d d' -> (fuel d' < fuel d)%nat) /\
  (forall d', ~ step fails (run_n fails (fuel d) d) d').
Proof.
  split.
  - intros d'. apply step_fuel.
  - apply next_none_stuck. apply run_n_quiescent. lia.
Qed.

(** ** Frames that leave no output *)

Lemma getitem_head {A} (x : A) (l : list A) : getitem (x :: l) 0 = inr x.
Proof. now apply getitem_nonneg. Qed.

Lemma getitem_second {A} (x y : A) (l : list A) : getitem (x :: y :: l) 1 = inr y.
Proof. now apply getitem_nonneg. Qed.

Lemma recognised_wire (tp : bytes) (rest : list bytes) :
  recognised (tp :: rest) = true <-> exists k, tp = wire k.
Proof.
  unfold recognised. rewrite existsb_exists. split.
  - intros (k & _ & Hk). exists k. now apply bytes_eqb_eq.
  - intros [k ->]. exists k. split; [destruct k; simpl; tauto | now apply bytes_eqb_eq].
Qed.

Lemma printed_not_recognised (msg : list bytes) :
  recognised msg = false -> printed msg = [].
Proof.
  intros H. destruct msg as [|tp [|body rest]];
    [now apply printed_short; simpl; lia | now apply printed_short; simpl; lia |].
  apply (printed_unrecognised (tp :: body :: rest) tp body);
    [apply getitem_head | apply getitem_second |].
  intros k ->. assert (E : recognised (wire k :: body :: rest) = true)
    by (apply recognised_wire; now exists k).
  congruence.
Qed.

Lemma printed_filter (keep : list bytes -> bool) (fs : list (list bytes)) :
  (forall m, keep m = false -> printed m = []) ->
  flat_map printed (filter keep fs) = flat_map printed fs.
Proof.
  intros Hk. induction fs as [|m fs IH]; [reflexivity|].
  simpl. destruct (keep m) eqn:E; simpl; rewrite IH; [reflexivity|].
  now rewrite (Hk m E).
Qed.

Lemma prints_of_blocks (fs : list (list bytes)) :
  prints_of (flat_map block fs) = flat_map printed fs.
Proof.
  induction fs as [|m fs IH]; [reflexivity|].
  cbn [flat_map]. rewrite prints_of_app, IH. f_equal.
  unfold block. change (EvRecv m :: map EvPrint (printed m) ++ [EvSpawn])
    with ([EvRecv m] ++ map EvPrint (printed m) ++ [EvSpawn]).
  rewrite !prints_of_app, prints_of_prints. cbn. now rewrite app_nil_r.
Qed.

(** X7. Frames with an unrecognised topic leave no mark on the output: a
    run over a stream of frames prints the per-frame outputs of the
    recognised frames, in order, and prints the same as a run over the
    stream with the other frames removed. *)
Theorem unrecognised_frames_leave_no_output (fs : list (list bytes)) :
  Forall (fun m => (2 <= List.length m)%nat) fs ->
  prints_of (trace (start never_fails (ZMQHandler_init fs))) =
    flat_map printed (filter recognised fs) /\
  prints_of (trace (start never_fails (ZMQHandler_init fs))) =
    prints_of (trace (start never_fails (ZMQHandler_init (filter recognised fs)))).
Proof.
  intros Hfs.
  assert (Hfs' : Forall (fun m => (2 <= List.length m)%nat) (filter recognised fs)).
  { rewrite Forall_forall in *. intros m Hm. apply filter_In in Hm. now apply Hfs. }
  destruct (start_in_order fs Hfs) as (_ & _ & _ & T1).
  destruct (start_in_order _ Hfs') as (_ & _ & _ & T2).
  rewrite T1, T2, !prints_of_blocks.
  rewrite (printed_filter recognised fs printed_not_recognised). now split.
Qed.

Lemma unrecognised_frames_leave_no_output_witness :
  Forall (fun m => (2 <= List.length m)%nat)
    [[b "hashtx"; [x01]]; [b "unknowntopic"; b "data"]; [b "rawtx"; [x02]]] /\
  prints_of (trace (start never_fails
                      (ZMQHandler_init
                         [[b "hashtx"; [x01]]; [b "unknowntopic"; b "data"];
                          [b "rawtx"; [x02]]]))) =
  prints_of (trace (start never_fails
                      (ZMQHandler_init
                         (filter recognised
                            [[b "hashtx"; [x01]]; [b "unknowntopic"; b "data"];
                             [b "rawtx"; [x02]]])))).
Proof.
  assert (H : Forall (fun m => (2 <= List.length m)%nat)
                [[b "hashtx"; [x01]]; [b "unknowntopic"; b "data"]; [b "rawtx"; [x02]]])
    by (repeat constructor).
  split; [exact H|].
  exact (proj2 (unrecognised_frames_leave_no_output _ H)).
Defined.

(** ** Subscriptions and branches *)

Lemma is_prefix_app (p s : bytes) : is_prefix p (p ++ s) = true.
Proof.
  induction p as [|c p IH]; [reflexivity|].
  simpl. rewrite IH, andb_true_r. now apply Byte.byte_dec_lb.
Qed.

Lemma passes_extended_topic (k : Topic) (s : bytes) (rest : list bytes) :
  passes_filter subscriptions ((wire k ++ s) :: rest) = true.
Proof.
  unfold passes_filter. apply existsb_exists. exists (wire k). split.
  - destruct k; simpl; tauto.
  - apply is_prefix_app.
Qed.

Lemma recognised_passes (msg : list bytes) :
  recognised msg = true -> passes_filter subscriptions msg = true.
Proof.
  destruct msg as [|tp rest]; [discriminate|].
  intros H. apply recognised_wire in H as [k ->].
  rewrite <- (app_nil_r (wire k)). apply passes_extended_topic.
Qed.

(** X8. The subscriptions set in [__init__] and the branches of [handle]
    name the same four topics, so every frame [handle] has a branch for is
    let through by the socket, and what the socket holds back would not
    have been printed: filtering a stream by the subscriptions changes
    nothing in what is printed frame by frame. *)
Theorem subscriptions_match_branches :
  (forall tp, In tp subscriptions <-> exists k, tp = wire k) /\
  (forall msg, recognised msg = true -> passes_filter subscriptions msg = true) /\
  (forall ps,
     flat_map printed (filter (passes_filter subscriptions) ps) = flat_map printed ps).
Proof.
  split; [|split].
  - intros tp. split.
    + intros [<-|[<-|[<-|[<-|[]]]]];
        [now exists BlockHash | now exists TxHash
        | now exists RawBlockHeader | now exists RawTx].
    + intros [k ->]. destruct k; simpl; tauto.
  - exact recognised_passes.
  - intros ps. apply printed_filter. intros m Hm.
    apply printed_not_recognised.
    destruct (recognised m) eqn:E; [|reflexivity].
    apply recognised_passes in E. congruence.
Qed.

(** X9. Subscriptions match by prefix, the branches of [handle] by
    equality: a frame whose topic is a subscribed topic followed by at least
    one more byte is let through by the socket and then dropped by [handle]
    without output or exception. *)
Theorem longer_topic_delivered_but_dropped fails (k : Topic) (s body : bytes)
    (rest : list bytes) (t : Trace) :
  s <> [] ->
  passes_filter subscriptions ((wire k ++ s) :: body :: rest) = true /\
  recognised ((wire k ++ s) :: body :: rest) = false /\
  handle_body fails ((wire k ++ s) :: body :: rest) t = Ok tt t.
Proof.
  intros Hs.
  assert (Hk : forall k', wire k ++ s <> wire k').
  { intros k' H. destruct s as [|c s]; [now apply Hs|].
    destruct k, k'; cbn in H; discriminate H. }
  split; [apply passes_extended_topic|]. split.
  - destruct (recognised _) eqn:E; [|reflexivity].
    apply recognised_wire in E as [k' E]. now apply Hk in E.
  - apply (handle_body_unrecognised fails _ (wire k ++ s) body t);
      [apply getitem_head | apply getitem_second | exact Hk].
Qed.

Lemma longer_topic_delivered_but_dropped_witness :
  [x73] <> [] /\
  passes_filter subscriptions [b "hashtxs"; b "data"] = true /\
  recognised [b "hashtxs"; b "data"] = false /\
  handle_body never_fails [b "hashtxs"; b "data"] [] = Ok tt [].
Proof.
  assert (H : [x73] <> []) by discriminate.
  split; [exact H|].
  exact (longer_topic_delivered_but_dropped never_fails TxHash [x73] (b "data") [] [] H).
Defined.

(** ** The output of a run under a failing output *)

Lemma handle_outcome_printed fails (msg : list bytes) (t : Trace) :
  handle fails msg t =
    Ok tt (t ++ EvRecv msg :: map EvPrint (printed msg) ++ [EvSpawn]) \/
  exists e l l',
    printed msg = l ++ l' /\
    handle fails msg t = Raise e (t ++ EvRecv msg :: map EvPrint l).
Proof.
  destruct (handle_body_writes_prefix fails msg (t ++ [EvRecv msg]))
    as (l & l' & Ht & Hp & Hok).
  unfold handle, bind, ensure_future_handle.
  destruct (handle_body fails msg (t ++ [EvRecv msg])) as [[] t1|e t1] eqn:E;
    cbn [trace_of] in Ht; subst t1.
  - left. rewrite (Hok tt _ eq_refl), app_nil_r in Hp. subst l.
    now rewrite <- !app_assoc.
  - right. exists e, l, l'. split; [exact Hp|]. now rewrite <- !app_assoc.
Qed.

Lemma prefix_step fails fs d d' :
  closed d = false ->
  (List.length (tasks d) <= 1)%nat ->
  (exists done rest,
     fs = done ++ inbox d /\ flat_map printed done = prints_of (trace d) ++ rest /\
     (tasks d <> [] -> rest = [])) ->
  step fails d d' ->
  closed d' = false /\
  (List.length (tasks d') <= 1)%nat /\
  (exists done rest,
     fs = done ++ inbox d' /\ flat_map printed done = prints_of (trace d') ++ rest /\
     (tasks d' <> [] -> rest = [])).
Proof.
  intros Hc Hl (done & rest & Hf & Hp & Ha) Hstep.
  destruct (tasks d) as [|c [|]] eqn:Hp'; cbn in Hl; try lia.
  { now apply no_task_no_step in Hstep. }
  rewrite (step_single fails d c d' Hp' Hstep).
  assert (Hr : rest = []) by (apply Ha; discriminate). subst rest.
  rewrite app_nil_r in Hp.
  destruct Hstep as [p1 c0 p2 _ Hq Hrun].
  assert (c0 = c) as ->.
  { rewrite Hp' in Hq. destruct p1 as [|a p1]; [now injection Hq as <- _|].
    injection Hq as _ Hq. now destruct p1. }
  destruct c; unfold fire.
  - rewrite Hc. cbn. repeat split; [lia|]. exists done, [].
    now rewrite app_nil_r.
  - simpl in Hrun. destruct (inbox d) as [|msg more];
      [rewrite andb_false_r in Hrun; discriminate|].
    destruct (handle_outcome_printed fails msg (trace d)) as [H|(e & l & l' & Hl' & H)];
      rewrite H; cbn; (split; [exact Hc|]); (split; [lia|]).
    + exists (done ++ [msg]), []. split; [now rewrite Hf, <- app_assoc|]. split.
      * rewrite flat_map_app, Hp. cbn. rewrite !app_nil_r.
        change (EvRecv msg :: map EvPrint (printed msg) ++ [EvSpawn])
          with ([EvRecv msg] ++ map EvPrint (printed msg) ++ [EvSpawn]).
        rewrite !prints_of_app, prints_of_prints. cbn. now rewrite app_nil_r.
      * reflexivity.
    + exists (done ++ [msg]), l'. split; [now rewrite Hf, <- app_assoc|]. split.
      * rewrite flat_map_app, Hp. cbn. rewrite app_nil_r, Hl'.
        rewrite <- app_assoc.
        change (EvRecv msg :: map EvPrint l)
          with ([EvRecv msg] ++ map EvPrint l).
        rewrite !prints_of_app, prints_of_prints. cbn.
        now rewrite app_nil_r, <- !app_assoc.
      * intros Hn. now contradiction Hn.
Qed.

Lemma prefix_steps fails fs d d' :
  closed d = false ->
  (List.length (tasks d) <= 1)%nat ->
  (exists done rest,
     fs = done ++ inbox d /\ flat_map printed done = prints_of (trace d) ++ rest /\
     (tasks d <> [] -> rest = [])) ->
  steps fails d d' ->
  exists rest, flat_map printed fs = prints_of (trace d') ++ rest.
Proof.
  intros Hc Hl Hi Hs. induction Hs as [d|d d1 d2 Hstep _ IH].
  - destruct Hi as (done & rest & Hf & Hp & _).
    exists (rest ++ flat_map printed (inbox d)).
    now rewrite Hf, flat_map_app, Hp, app_assoc.
  - destruct (prefix_step fails fs d d1 Hc Hl Hi Hstep) as (Hc1 & Hl1 & Hi1).
    now apply IH.
Qed.

(** X12. Whatever the output does and whatever the frames look like, a run
    never prints anything spurious or out of order: at every moment, and
    when [start] has run out of work, what has been printed is an initial
    part of what the same frames print when nothing fails. *)
Theorem run_prints_a_prefix fails (fs : list (list bytes)) :
  (forall d,
     steps fails (enter_loop (create_task (add_signal_handler (ZMQHandler_init fs)))) d ->
     exists rest, flat_map printed fs = prints_of (trace d) ++ rest) /\
  exists rest,
    flat_map printed fs = prints_of (trace (start fails (ZMQHandler_init fs))) ++ rest.
Proof.
  set (d1 := enter_loop (create_task (add_signal_handler (ZMQHandler_init fs)))).
  assert (H : forall d, steps fails d1 d ->
                exists rest, flat_map printed fs = prints_of (trace d) ++ rest).
  { intros d. apply prefix_steps; [reflexivity | cbn; lia |].
    exists [], []. now repeat split. }
  split; [exact H|].
  unfold start, run_forever. fold d1.
  destruct (H _ (run_n_steps fails (fuel d1) d1)) as [rest Hr].
  exists rest. now destruct (stopping (run_n fails (fuel d1) d1)).
Qed.

(** ** Order of dispatch *)

Lemma spec_sequence_guard (tl : bytes) :
  (if len tl =? 4 then Some (int_from_le tl) else None) = spec_sequence tl.
Proof.
  destruct tl as [|b0 [|b1 [|b2 [|b3 [|b4 tl]]]]]; try reflexivity.
  - change (len [b0; b1; b2; b3] =? 4) with true. cbv iota.
    now rewrite int_from_le_4.
  - replace (len (b0 :: b1 :: b2 :: b3 :: b4 :: tl) =? 4) with false;
      [reflexivity|].
    symmetry. apply Z.eqb_neq. unfold len. cbn [List.length]. lia.
Qed.

Lemma spec_topic_wire (k : Topic) : spec_topic (wire k) = Some k.
Proof. destruct k; reflexivity. Qed.

Lemma spec_topic_other (tp : bytes) :
  (forall k, tp <> wire k) -> spec_topic tp = None.
Proof.
  intros Hk. unfold spec_topic. cbn [find].
  now rewrite !bytes_eqb_neq by apply Hk.
Qed.

(** The body of [handle] prints what the specification's decoding calls
    for, on every frame: the two lines of the notification, or nothing when
    the frame is dropped or too short. *)
Lemma printed_spec (msg : list bytes) : printed msg = spec_lines msg.
Proof.
  destruct msg as [|tp [|body rest]];
    [now apply printed_short; simpl; lia | now apply printed_short; simpl; lia |].
  assert (H2 : getitem (tp :: body :: rest) (-1) = inr (last (tp :: body :: rest) []))
    by (apply (getitem_last (tp :: body :: rest) _ []); split;
        [discriminate | reflexivity]).
  unfold spec_lines, spec_decode.
  destruct (wire_cases tp) as [[k ->]|Hk].
  - rewrite (printed_recognised _ k body _ (getitem_head _ _) (getitem_second _ _ _) H2).
    rewrite spec_topic_wire, spec_sequence_guard. cbn [topic sequence payload].
    destruct k; try reflexivity.
    change 80 with (Z.of_nat 80). now rewrite slice_to_firstn, firstn_min_length.
  - rewrite (printed_unrecognised _ tp body (getitem_head _ _) (getitem_second _ _ _) Hk).
    now rewrite spec_topic_other.
Qed.

Lemma block_spec (msg : list bytes) : block msg = dispatch_events msg.
Proof. unfold block, dispatch_events. now rewrite printed_spec. Qed.

Lemma blocks_spec (fs : list (list bytes)) :
  flat_map block fs = flat_map dispatch_events fs.
Proof. apply flat_map_ext. intros m. apply block_spec. Qed.

Lemma dispatched_step fails fs d d' :
  closed d = false -> dispatched_in_order fs d -> step fails d d' ->
  closed d' = false /\ dispatched_in_order fs d'.
Proof.
  intros Hc (done & Hf & Ht) Hstep.
  destruct (tasks d) as [|c [|]] eqn:Hp; [| |contradiction].
  { now apply no_task_no_step in Hstep. }
  rewrite (step_single fails d c d' Hp Hstep).
  destruct Hstep as [p1 c0 p2 _ Hq Hrun].
  assert (c0 = c) as ->.
  { rewrite Hp in Hq. destruct p1 as [|a p1]; [now injection Hq as <- _|].
    injection Hq as _ Hq. now destruct p1. }
  destruct c; unfold fire.
  - rewrite Hc. split; [reflexivity|]. now exists done.
  - simpl in Hrun. destruct (inbox d) as [|msg more];
      [rewrite andb_false_r in Hrun; discriminate|].
    destruct (handle_outcome_printed fails msg (trace d)) as [H|(e & l & l' & Hl & H)];
      rewrite H; (split; [exact Hc|]); exists (done ++ [msg]);
      (split; [cbn [inbox]; now rewrite Hf, <- app_assoc|]); cbn [tasks trace app].
    + rewrite flat_map_app, Ht. cbn [flat_map]. rewrite app_nil_r.
      unfold dispatch_events. now rewrite printed_spec.
    + exists done, msg, l, l', e. rewrite <- printed_spec, Ht, <- app_assoc.
      now repeat split.
Qed.

Lemma dispatched_steps fails fs d d' :
  closed d = false -> dispatched_in_order fs d -> steps fails d d' ->
  dispatched_in_order fs d'.
Proof.
  intros Hc Hd Hs. induction Hs as [|d d1 d2 Hstep _ IH]; [assumption|].
  destruct (dispatched_step fails fs d d1 Hc Hd Hstep) as [Hc1 Hd1]. now apply IH.
Qed.

(** C6. Frames are dispatched in arrival order, one at a time.  Under any
    output, at every moment of a run, a prefix of the arrived frames is off
    the queue and the trace holds, for each of them in turn, its receipt,
    the two printed lines of its decoded notification and the rescheduling
    of [handle]; only if the task has died is the last of these blocks cut
    short by the exception.  With a working output there is exactly one
    [handle] task at every moment, every block is whole, and the run
    dispatches every frame. *)
Theorem notifications_dispatched_in_arrival_order fails (fs : list (list bytes)) :
  Forall (fun m => (2 <= List.length m)%nat) fs ->
  (forall d,
     steps fails
       (enter_loop (create_task (add_signal_handler (ZMQHandler_init fs)))) d ->
     dispatched_in_order fs d) /\
  (forall d,
     steps never_fails
       (enter_loop (create_task (add_signal_handler (ZMQHandler_init fs)))) d ->
     List.length (tasks d) = 1%nat /\
     exists done, fs = done ++ inbox d /\ trace d = flat_map dispatch_events done) /\
  trace (start never_fails (ZMQHandler_init fs)) = flat_map dispatch_events fs /\
  inbox (start never_fails (ZMQHandler_init fs)) = [].
Proof.
  intros Hfs. split; [|split].
  - intros d. apply dispatched_steps; [reflexivity|]. now exists [].
  - intros d Hd.
    destruct (in_order_steps fs _ d Hfs (in_order_entering fs) Hd)
      as (_ & _ & _ & Hl & done & Hf & Ht).
    split; [exact Hl|]. exists done. now rewrite <- blocks_spec.
  - destruct (start_in_order fs Hfs) as (_ & _ & Hi & Ht).
    now rewrite <- blocks_spec.
Qed.

Lemma notifications_dispatched_in_arrival_order_witness :
  Forall (fun m => (2 <= List.length m)%nat)
    [[b "hashtx"; [x01]]; [b "rawtx"; [x02]; [x05; x00; x00; x00]];
     [b "unknowntopic"; b "data"]; [b "hashblock"; [x03]]] /\
  trace (start never_fails
           (ZMQHandler_init
              [[b "hashtx"; [x01]]; [b "rawtx"; [x02]; [x05; x00; x00; x00]];
               [b "unknowntopic"; b "data"]; [b "hashblock"; [x03]]])) =
  [EvRecv [b "hashtx"; [x01]];
   EvPrint (PStr "- HASH TX  (Unknown) -"); EvPrint (PBytes (b "01")); EvSpawn;
   EvRecv [b "rawtx"; [x02]; [x05; x00; x00; x00]];
   EvPrint (PStr "- RAW TX (5) -"); EvPrint (PBytes (b "02")); EvSpawn;
   EvRecv [b "unknowntopic"; b "data"]; EvSpawn;
   EvRecv [b "hashblock"; [x03]];
   EvPrint (PStr "- HASH BLOCK (Unknown) -"); EvPrint (PBytes (b "03")); EvSpawn].
Proof.
  assert (H : Forall (fun m => (2 <= List.length m)%nat)
                [[b "hashtx"; [x01]]; [b "rawtx"; [x02]; [x05; x00; x00; x00]];
                 [b "unknowntopic"; b "data"]; [b "hashblock"; [x03]]])
    by (repeat constructor).
  split; [exact H|].
  exact (proj1 (proj2 (proj2 (notifications_dispatched_in_arrival_order never_fails _ H)))).
Defined.
